(** * TCP-Proxy: round-robin pool, health checker and server life cycle

    A shallow embedding of [pkg/loadBalancer] and [pkg/server] of the
    TCP proxy, and the properties of its design document checked on it.

    Conventions of the embedding:
    - a Go [uint64] is a [Z] in [0, 2^64); the wrap-around of
      [atomic.AddUint64] is written out;
    - a run-time panic, [log.Fatal] (which calls [os.Exit(1)]) and a call
      that stays blocked for ever are outcomes of their own, so that "the
      call returns" is a statement;
    - the operating system (dialing, listening, closing) is an oracle that
      answers from the history of events so far; every call the code makes
      is recorded in that history. *)

From stdpp Require Import gmap strings list fin_maps pretty.
From Stdlib Require Import ZArith Lia.

Local Open Scope Z_scope.

(** ** Outcomes of a Go call *)

Inductive result (A : Type) : Type :=
| Ok (a : A)
| Panic (msg : string)
| Exit (code : Z)
| NoReturn.
Arguments Ok {A} a.
Arguments Panic {A} msg.
Arguments Exit {A} code.
Arguments NoReturn {A}.

#[global] Instance result_ret : MRet result := λ A a, Ok a.

#[global] Instance result_bind : MBind result := λ A B k r,
  match r with
  | Ok a => k a
  | Panic m => Panic m
  | Exit c => Exit c
  | NoReturn => NoReturn
  end.

Definition is_Ok {A} (r : result A) : Prop := ∃ a, r = Ok a.

(** ** Machine integers and durations *)

Definition uint64_modulus : Z := 2 ^ 64.

Definition wf_uint64 (x : Z) : Prop := 0 ≤ x < uint64_modulus.

(** [atomic.AddUint64(&x, delta)]: the new value, wrapped. *)
Definition AddUint64 (x delta : Z) : Z := (x + delta) `mod` uint64_modulus.

(** [time.Duration] counts nanoseconds. *)
Definition Second : Z := 1000000000.

(** ** The outside world

    Addresses, sockets and connections of Go's [net] and [syscall], kept
    to what the proxy reads of them. *)

(** [net.TCPAddr]; an [IP] is a byte slice. *)
Record TCPAddr : Type := mkTCPAddr {
  IP : list Z;
  Port : Z;
  Zone : string
}.

(** [syscall.Sockaddr]: [SockaddrInet4] or [SockaddrInet6]. *)
Inductive Sockaddr : Type :=
| SockaddrInet4 (addr : list Z) (port : Z)
| SockaddrInet6 (addr : list Z) (port : Z) (zoneId : Z).

(** What [syscall.Connect] answers: [nil], [EINPROGRESS], another error. *)
Inductive ConnectResult : Type := ConnectOk | ConnectInProgress | ConnectErr.

Inductive Event : Type :=
| EvLog (msg : string)
| EvPrintln (msg : string)
| EvGo (what : string)
| EvNewTicker (period : Z)
| EvTick
| EvDialTimeout (addr : string) (timeout : Z) (ok : bool)
| EvCloseProbe (addr : string)
| EvResolveTCPAddr (addr : string) (res : option TCPAddr)
| EvListenTCP (laddr : option TCPAddr) (l : option nat)
| EvGoAccept (ln : option nat) (app : string)
| EvAcceptTCP (l : nat) (c : option nat)
| EvGoHandle (conn : nat) (app : string)
| EvCloseListener (l : nat) (ok : bool)
| EvCloseChan
| EvSocket (fd : option Z)
| EvSetsockopt (fd : Z) (ok : bool)
| EvConnect (fd : Z) (sa : Sockaddr) (res : ConnectResult)
| EvCloseFd (fd : Z)
| EvFileConn (fd : Z) (c : option nat)
| EvCloseFile (fd : Z)
| EvRelay (client backend : nat)
| EvCloseConn (c : nat).

Abbreviation Trace := (list Event).

(** The operating system and the network: each answer may depend on
    everything that happened before.  A listener and a connection are
    named by a number; [None] is Go's [nil] (with a non-nil error).
    [copy_returns tr dst src] tells whether [io.Copy(dst, src)] ever
    returns: it does when a read of [src] ends the stream or fails (the
    idle timeout of a [Conn] included) or a write to [dst] fails, and it
    does not for as long as [src] keeps delivering. *)
Record Env : Type := {
  dial_timeout_ok : Trace → string → Z → bool;
  resolve_tcp_addr : Trace → string → option TCPAddr;
  listen_tcp : Trace → option TCPAddr → option nat;
  accept_tcp : Trace → nat → option nat;
  close_listener_ok : Trace → nat → bool;
  sys_socket : Trace → option Z;
  sys_setsockopt_ok : Trace → Z → bool;
  sys_connect : Trace → Z → Sockaddr → ConnectResult;
  file_conn : Trace → Z → option nat;
  copy_returns : Trace → nat → nat → bool
}.

(** ** Loops without a bound

    A loop body reports whether the loop goes on. *)

Inductive loop_ctl : Type := Continue | Break.

(** Run a loop for at most [n] rounds: [Break] means the loop was left,
    [Continue] that it is still running after [n] rounds. *)
Fixpoint loop_n {St : Type} (body : St → loop_ctl * St) (n : nat) (st : St)
  : loop_ctl * St :=
  match n with
  | O => (Continue, st)
  | S n' =>
    match body st with
    | (Break, st') => (Break, st')
    | (Continue, st') => loop_n body n' st'
    end
  end.

(** ** Package loadBalancer *)

Module loadBalancer.

Record Backend : Type := mkBackend {
  target : string;
  Alive : bool
}.

(** A [*Backend] held by a pool is identified by its slot in the pool's
    [backends] slice: [NewServerPool] allocates one [Backend] per target,
    so the pointers stored in the slice are pairwise distinct. *)
Definition BackendRef : Type := nat.

Record ServerPool : Type := mkServerPool {
  backends : list Backend;
  current : Z
}.

Definition NewBackend (tgt : string) : Backend :=
  {| target := tgt; Alive := true |}.

Definition NewServerPool (targets : list string) : ServerPool :=
  {| backends := foldl (λ bs val, bs ++ [NewBackend val]) [] targets;
     current := 0 |}.

Definition SetAlive (b : Backend) (alive : bool) : Backend :=
  {| target := target b; Alive := alive |}.

Definition IsAlive (b : Backend) : bool := Alive b.

Definition GetAddress (b : Backend) : string := target b.

Definition len (s : ServerPool) : Z := Z.of_nat (length (backends s)).

Definition store_current (s : ServerPool) (v : Z) : ServerPool :=
  {| backends := backends s; current := v |}.

(** [NextIndex]: the counter is incremented first, then reduced modulo the
    pool size; an empty pool makes the modulo panic. *)
Definition NextIndex (s : ServerPool) : result (Z * ServerPool) :=
  let bel := len s in
  let v := AddUint64 (current s) 1 in
  if bel =? 0 then Panic "runtime error: integer divide by zero"
  else Ok (v `mod` bel, store_current s v).

(** The [for i := next; i < l; i++] loop of [GetNextPeer], with [n] the
    number of iterations left ([l - i]). *)
Fixpoint scan (s : ServerPool) (next i : Z) (n : nat)
  : result (option BackendRef * ServerPool) :=
  match n with
  | O => Ok (None, s)
  | S n' =>
    if len s =? 0 then Panic "runtime error: integer divide by zero"
    else
      let idx := i `mod` len s in
      match backends s !! Z.to_nat idx with
      | None => Panic "runtime error: index out of range"
      | Some b =>
        if IsAlive b then
          Ok (Some (Z.to_nat idx),
              if i =? next then s else store_current s idx)
        else scan s next (i + 1) n'
      end
  end.

Definition GetNextPeer (s : ServerPool)
  : result (option BackendRef * ServerPool) :=
  '(next, s1) ← NextIndex s;
  let l := len s1 + next in
  scan s1 next next (Z.to_nat (l - next)).

(** [isBackendAlive]: one connection attempt with a two-second timeout. *)
Definition probe_timeout : Z := 2 * Second.

Definition isBackendAlive (E : Env) (addr : string) (tr : Trace)
  : bool * Trace :=
  let ok := dial_timeout_ok E tr addr probe_timeout in
  let tr := tr ++ [EvDialTimeout addr probe_timeout ok] in
  if ok then (true, tr ++ [EvCloseProbe addr])
  else (false, tr ++ [EvLog "Site unreachable, error: "]).

(** The body of the [range] loop of [healthCheckItr] for slot [i]: [b] is
    the pointer stored there, read and written through the pool. *)
Definition healthCheckOne (E : Env) (st : list Backend * Trace) (i : nat)
  : list Backend * Trace :=
  let '(bs, tr) := st in
  match bs !! i with
  | None => st
  | Some b =>
    let '(alive, tr) := isBackendAlive E (target b) tr in
    let bs := <[i := SetAlive b alive]> bs in
    let status := if alive then "up" else "down" in
    (bs, tr ++ [EvLog (target b +:+ " [" +:+ status +:+ "]")])
  end.

Definition healthCheckItr (E : Env) (s : ServerPool) (tr : Trace)
  : ServerPool * Trace :=
  let '(bs, tr) :=
    foldl (healthCheckOne E) (backends s, tr) (seq 0 (length (backends s))) in
  ({| backends := bs; current := current s |}, tr).

(** The period of the ticker of [HealthCheck]. *)
Definition health_check_period : Z := Second * 20.

(** [HealthCheck] is [for { select { case <-t.C: ... } }]: one round per
    tick, and no way out of the loop. *)
Definition HealthCheck_body (E : Env) (st : ServerPool * Trace)
  : loop_ctl * (ServerPool * Trace) :=
  let '(s, tr) := st in
  let tr := tr ++ [EvTick] in
  let tr := tr ++ [EvLog "Starting health check..."] in
  let '(s, tr) := healthCheckItr E s tr in
  let tr := tr ++ [EvLog "Health check completed"] in
  (Continue, (s, tr)).

Definition HealthCheck (E : Env) (ticks : nat) (s : ServerPool)
    (tr : Trace) : loop_ctl * (ServerPool * Trace) :=
  loop_n (HealthCheck_body E) ticks (s, tr ++ [EvNewTicker health_check_period]).

(** [k] consecutive selections, with what each one returned. *)
Fixpoint select_many (k : nat) (s : ServerPool)
  : result (list (option BackendRef) * ServerPool) :=
  match k with
  | O => Ok ([], s)
  | S k' =>
    '(r, s1) ← GetNextPeer s;
    '(rs, s2) ← select_many k' s1;
    Ok (r :: rs, s2)
  end.

End loadBalancer.

(** ** Package server *)

Module server.

Import loadBalancer.

(** *** The shutdown signal *)

(** [SigChannel]: whether channel [C] is closed, and whether [once] has
    already run its function. *)
Record SigChannel : Type := mkSigChannel {
  C_closed : bool;
  once_done : bool
}.

Definition NewSigChannel : SigChannel :=
  {| C_closed := false; once_done := false |}.

(** Go's [close(c)]: closing a closed channel panics. *)
Definition close_chan (sc : SigChannel) (tr : Trace)
  : result SigChannel * Trace :=
  if C_closed sc then (Panic "close of closed channel", tr)
  else (Ok {| C_closed := true; once_done := once_done sc |},
        tr ++ [EvCloseChan]).

(** [sc.once.Do(func() { close(sc.C) })]. *)
Definition SafeClose (sc : SigChannel) (tr : Trace)
  : result SigChannel * Trace :=
  if once_done sc then (Ok sc, tr)
  else
    match close_chan sc tr with
    | (Ok sc', tr') => (Ok {| C_closed := C_closed sc'; once_done := true |}, tr')
    | (r, tr') => (r, tr')
    end.

(** [n] calls of [SafeClose] in a row. *)
Fixpoint SafeClose_times (n : nat) (sc : SigChannel) (tr : Trace)
  : result SigChannel * Trace :=
  match n with
  | O => (Ok sc, tr)
  | S n' =>
    match SafeClose sc tr with
    | (Ok sc', tr') => SafeClose_times n' sc' tr'
    | (r, tr') => (r, tr')
    end
  end.

(** *** The wait group *)

(** [sync.WaitGroup]: [Add] panics when the counter would go negative,
    [Done] is [Add(-1)], and [Wait] returns only once the counter is zero. *)
Definition wg_Add (wg delta : Z) : result Z :=
  let v := wg + delta in
  if v <? 0 then Panic "sync: negative WaitGroup counter" else Ok v.

Definition wg_Done (wg : Z) : result Z := wg_Add wg (-1).

Definition wg_Wait_returns (wg : Z) : bool := wg =? 0.

(** *** Configuration and server *)

Record App : Type := mkApp {
  Name : string;
  Ports : list Z;
  Targets : list string
}.

(** A [*net.TCPListener] is [Some l], or [None] for [nil].  The counter of
    [listenerGroup] (a [sync.WaitGroup]) is an integer. *)
Record Server : Type := mkServer {
  Quit : SigChannel;
  listener : gmap (option nat) string;
  listenerGroup : Z;
  serverPool : gmap string ServerPool
}.

(** [strconv.Itoa]. *)
Definition Itoa (n : Z) : string := pretty n.

(** The body of the loop over [app.Ports] in [NewServer]. *)
Definition listenOnPort (E : Env) (name : string)
    (st : gmap (option nat) string * Trace) (port : Z)
  : gmap (option nat) string * Trace :=
  let '(ls, tr) := st in
  let a := "127.0.0.1:" +:+ Itoa port in
  let addr := resolve_tcp_addr E tr a in
  let tr := tr ++ [EvResolveTCPAddr a addr] in
  let tr := match addr with
            | None => tr ++ [EvLog "Unable to resolve IP for port"]
            | Some _ => tr
            end in
  let l := listen_tcp E tr addr in
  let tr := tr ++ [EvListenTCP addr l] in
  let tr := match l with
            | None => tr ++ [EvLog "Unable to listen"]
            | Some _ => tr
            end in
  (<[l := name]> ls, tr).

(** The body of the loop over [apps] in [NewServer]. *)
Definition startApp (E : Env) (st : Server * Trace) (app : App)
  : Server * Trace :=
  let '(s, tr) := st in
  let '(ls, tr) := foldl (listenOnPort E (Name app)) (listener s, tr) (Ports app) in
  let sp := NewServerPool (Targets app) in
  ({| Quit := Quit s;
      listener := ls;
      listenerGroup := listenerGroup s;
      serverPool := <[Name app := sp]> (serverPool s) |},
   tr ++ [EvGo "sp.HealthCheck()"]).

Definition NewServer (E : Env) (apps : list App) (tr : Trace)
  : Server * Trace :=
  let s := {| Quit := NewSigChannel; listener := ∅;
              listenerGroup := 0; serverPool := ∅ |} in
  let '(s, tr) := foldl (startApp E) (s, tr) apps in
  ({| Quit := Quit s;
      listener := listener s;
      listenerGroup := listenerGroup s + 1;
      serverPool := serverPool s |},
   tr ++ [EvGo "s.Serve()"]).

(** *** Serving *)

(** [Serve]: one goroutine running [acceptConnections] for every key of
    the listener map, visited in the order [order]; each is registered in
    the wait group before it starts.  The deferred [Done] runs last. *)
Definition serveListener (s : Server) (st : result Z * Trace) (ln : option nat)
  : result Z * Trace :=
  let '(g, tr) := st in
  (g ← g; wg_Add g 1,
   tr ++ [EvGoAccept ln (default "" (listener s !! ln))]).

Definition Serve (order : list (option nat)) (s : Server) (tr : Trace)
  : result Server * Trace :=
  let '(g, tr) := foldl (serveListener s) (Ok (listenerGroup s), tr) order in
  let tr := tr ++ [EvLog "Started Listening For New Connections"] in
  (g ← g; g ← wg_Done g;
   Ok {| Quit := Quit s; listener := listener s;
         listenerGroup := g; serverPool := serverPool s |},
   tr).

(** One round of the loop of [acceptConnections], on the wait-group
    counter [g].  [AcceptTCP] is called on [*listener], which for a nil
    [listener] dereferences nil.  On an error the loop is left if the
    shutdown signal is closed ([quit_closed]); on success the handler of
    the connection is registered and started. *)
Definition acceptConnections_round (E : Env) (quit_closed : bool)
    (listener : option nat) (app : string) (st : Z * Trace)
  : result (loop_ctl * (Z * Trace)) :=
  let '(g, tr) := st in
  match listener with
  | None =>
    Panic "runtime error: invalid memory address or nil pointer dereference"
  | Some l =>
    let c := accept_tcp E tr l in
    let tr := tr ++ [EvAcceptTCP l c] in
    match c with
    | None =>
      if quit_closed then Ok (Break, (g, tr))
      else Ok (Continue,
               (g, tr ++ [EvLog "an error occured while accepting TCP connections"]))
    | Some conn =>
      g ← wg_Add g 1;
      Ok (Continue, (g, tr ++ [EvGoHandle conn app]))
    end
  end.

(** The loop of [acceptConnections], run for at most [n] rounds, the first
    of them round [k]; [quit_at k] tells whether the shutdown signal is
    closed when round [k] looks at it. *)
Fixpoint acceptConnections (E : Env) (quit_at : nat → bool)
    (listener : option nat) (app : string) (k n : nat) (st : Z * Trace)
  : result (loop_ctl * (Z * Trace)) :=
  match n with
  | O => Ok (Continue, st)
  | S n' =>
    r ← acceptConnections_round E (quit_at k) listener app st;
    match r with
    | (Break, st') => Ok (Break, st')
    | (Continue, st') => acceptConnections E quit_at listener app (S k) n' st'
    end
  end.

(** *** Stop *)

(** The [range] loop of [Stop] over the listeners, taken in the order
    [order] (Go leaves the order of a map's keys open).  [Close] is called
    on [*ln], which for a nil [ln] dereferences nil; [log.Fatal] ends the process with
    status 1. *)
Fixpoint closeListeners (E : Env) (order : list (option nat)) (tr : Trace)
  : result unit * Trace :=
  match order with
  | [] => (Ok (), tr)
  | None :: _ =>
    (Panic "runtime error: invalid memory address or nil pointer dereference", tr)
  | Some ln :: rest =>
    let ok := close_listener_ok E tr ln in
    let tr := tr ++ [EvCloseListener ln ok] in
    if ok then closeListeners E rest tr
    else (Exit 1, tr ++ [EvLog "Error occurred while closing listener"])
  end.

Definition Stop (E : Env) (order : list (option nat)) (s : Server) (tr : Trace)
  : result Server * Trace :=
  match SafeClose (Quit s) tr with
  | (Ok q, tr) =>
    let s := {| Quit := q; listener := listener s;
                listenerGroup := listenerGroup s;
                serverPool := serverPool s |} in
    match closeListeners E order tr with
    | (Ok _, tr) => (Ok s, tr ++ [EvPrintln "Stoped gracefully"])
    | (Panic m, tr) => (Panic m, tr)
    | (Exit c, tr) => (Exit c, tr)
    | (NoReturn, tr) => (NoReturn, tr)
    end
  | (Panic m, tr) => (Panic m, tr)
  | (Exit c, tr) => (Exit c, tr)
  | (NoReturn, tr) => (NoReturn, tr)
  end.

(** An order in which [range s.listener] may visit the keys. *)
Definition range_order (s : Server) (order : list (option nat)) : Prop :=
  order ≡ₚ (map_to_list (listener s)).*1.

(** *** Dialing the backend *)

(** [net.IP.To4], [net.IP.To16] and [strconv.ParseUint(s, 10, 32)] of Go's
    standard library. *)
Definition v4InV6Prefix : list Z := [0; 0; 0; 0; 0; 0; 0; 0; 0; 0; 255; 255].

Definition To4 (ip : list Z) : option (list Z) :=
  if (length ip =? 4)%nat then Some ip
  else if (length ip =? 16)%nat && bool_decide (take 12 ip = v4InV6Prefix)
       then Some (drop 12 ip)
       else None.

Definition To16 (ip : list Z) : option (list Z) :=
  if (length ip =? 4)%nat then Some (v4InV6Prefix ++ ip)
  else if (length ip =? 16)%nat then Some ip
  else None.

Definition digit_of (a : Ascii.ascii) : option Z :=
  let n := Z.of_nat (Ascii.nat_of_ascii a) in
  if (48 <=? n) && (n <=? 57) then Some (n - 48) else None.

Fixpoint parse_digits (acc : Z) (s : string) : option Z :=
  match s with
  | EmptyString => Some acc
  | String a s' =>
    match digit_of a with
    | None => None
    | Some d => parse_digits (acc * 10 + d) s'
    end
  end.

Definition ParseUint32 (s : string) : option Z :=
  match s with
  | EmptyString => None
  | _ =>
    match parse_digits 0 s with
    | Some v => if v <? 2 ^ 32 then Some v else None
    | None => None
    end
  end.

(** [copy(ip[:], src)] into a zeroed array of [n] bytes; a nil [src]
    copies nothing. *)
Definition copy_into (n : nat) (src : option (list Z)) : list Z :=
  take n (default [] src ++ replicate n 0).

Definition tcpAddrToSocketAddr (addr : TCPAddr) : option Sockaddr :=
  match To4 (IP addr) with
  | Some ip4 => Some (SockaddrInet4 (copy_into 4 (Some ip4)) (Port addr))
  | None =>
    let ip := copy_into 16 (To16 (IP addr)) in
    match ParseUint32 (Zone addr) with
    | None => None
    | Some zoneID => Some (SockaddrInet6 ip (Port addr) zoneID)
    end
  end.

(** [Conn]: the wrapped connection and its idle timeout. *)
Record Conn : Type := mkConn {
  conn_id : nat;
  idleTimeout : Z
}.

(** [DialTCP]: [None] is the [(nil, err)] return. *)
Definition DialTCP (E : Env) (network addr : string) (tr : Trace)
  : option Conn * Trace :=
  let taddr := resolve_tcp_addr E tr addr in
  let tr := tr ++ [EvResolveTCPAddr addr taddr] in
  match taddr with
  | None => (None, tr)
  | Some taddr =>
    match tcpAddrToSocketAddr taddr with
    | None => (None, tr)
    | Some saddr =>
      let fd := sys_socket E tr in
      let tr := tr ++ [EvSocket fd] in
      match fd with
      | None => (None, tr)
      | Some fd =>
        let ok := sys_setsockopt_ok E tr fd in
        let tr := tr ++ [EvSetsockopt fd ok] in
        if negb ok then (None, tr ++ [EvCloseFd fd])
        else
          let c := sys_connect E tr fd saddr in
          let tr := tr ++ [EvConnect fd saddr c] in
          match c with
          | ConnectErr => (None, tr ++ [EvCloseFd fd])
          | ConnectOk | ConnectInProgress =>
            let fc := file_conn E tr fd in
            let tr := tr ++ [EvFileConn fd fc] in
            match fc with
            | None => (None, tr ++ [EvCloseFd fd; EvCloseFile fd])
            | Some c =>
              (Some {| conn_id := c; idleTimeout := 20 * Second |},
               tr ++ [EvCloseFile fd])
            end
          end
      end
    end
  end.

(** *** Routing one connection *)

(** [proxyConnection]: the pool of [appName] is advanced in the server's
    map; a missing pool is a nil [*ServerPool], whose [GetNextPeer] reads
    through nil.  After a successful dial one copy is started as a
    goroutine and the other, [io.Copy(conn, conn2)] (recorded as
    [EvRelay]), runs in the caller: [proxyConnection] returns when that
    copy returns, and stays blocked in it otherwise.  The deferred [Close]
    calls run when it returns, [conn2] first. *)
Definition proxyConnection (E : Env) (s : Server) (conn : nat)
    (appName : string) (tr : Trace) : result Server * Trace :=
  match serverPool s !! appName with
  | None =>
    (Panic "runtime error: invalid memory address or nil pointer dereference", tr)
  | Some backend =>
    match GetNextPeer backend with
    | Panic m => (Panic m, tr)
    | Exit c => (Exit c, tr)
    | NoReturn => (NoReturn, tr)
    | Ok (nextTarget, backend') =>
      let s := {| Quit := Quit s; listener := listener s;
                  listenerGroup := listenerGroup s;
                  serverPool := <[appName := backend']> (serverPool s) |} in
      let remoteAddr :=
        match nextTarget with
        | Some p => default "" (GetAddress <$> backends backend' !! p)
        | None => ""
        end in
      match DialTCP E "tcp" remoteAddr tr with
      | (None, tr) =>
        (Ok s, tr ++ [EvLog "Error dialing remote address"; EvCloseConn conn])
      | (Some conn2, tr) =>
        let tr := tr ++ [EvGo "io.Copy(conn2, conn)"] in
        let back := copy_returns E tr conn (conn_id conn2) in
        let tr := tr ++ [EvRelay conn (conn_id conn2)] in
        if back then
          (Ok s, tr ++ [EvCloseConn (conn_id conn2); EvCloseConn conn])
        else (NoReturn, tr)
      end
    end
  end.

(** *** The goroutines of one accepted connection *)

(** Where the goroutine that runs [handleConnection] stands: at the head
    of its [for] loop, blocked in [s.listenerGroup.Wait()], or back in the
    caller (the loop has no [break] and no [return], so no move leads
    there). *)
Inductive HandlerPc : Type := AtLoopHead | AtWait | Returned.

(** The goroutines that share [s.listenerGroup] while one accepted
    connection is handled:
    - the goroutine started by [acceptConnections], which runs
      [handleConnection] and then calls [Done] ([wrapper_done]);
    - the goroutines [handleConnection] starts, each running
      [proxyConnection] and then [Done];
    - the rest of the program (the accept loops, the other connections),
      of which only the registrations it still holds matter ([others]). *)
Record ConnState : Type := mkConnState {
  group : Z;
  handler : HandlerPc;
  wrapper_done : bool;
  relays_running : nat;
  relays_spawned : nat;
  others : nat
}.

Inductive Move : Type :=
| SpawnRelay    (* handleConnection: Add(1); go func() { proxyConnection; Done } *)
| WaitReturns   (* handleConnection: Wait() returns, back to the loop head *)
| RelayDone     (* a proxyConnection goroutine returns and calls Done *)
| WrapperDone   (* acceptConnections' goroutine: Done after handleConnection *)
| OtherAdd      (* another goroutine registers: Add(1) *)
| OtherDone.    (* another goroutine gives its registration back: Done *)

Inductive outcome : Type :=
| Blocked
| Next (c : ConnState)
| Crash (msg : string).

Definition with_group (r : result Z) (k : Z → ConnState) : outcome :=
  match r with
  | Ok g => Next (k g)
  | Panic m => Crash m
  | Exit _ => Crash "exit"
  | NoReturn => Blocked
  end.

Definition step (m : Move) (c : ConnState) : outcome :=
  match m with
  | SpawnRelay =>
    match handler c with
    | AtLoopHead =>
      with_group (wg_Add (group c) 1) (λ g,
        {| group := g; handler := AtWait; wrapper_done := wrapper_done c;
           relays_running := S (relays_running c);
           relays_spawned := S (relays_spawned c);
           others := others c |})
    | _ => Blocked
    end
  | WaitReturns =>
    match handler c with
    | AtWait =>
      if wg_Wait_returns (group c) then
        Next {| group := group c; handler := AtLoopHead;
                wrapper_done := wrapper_done c;
                relays_running := relays_running c;
                relays_spawned := relays_spawned c;
                others := others c |}
      else Blocked
    | _ => Blocked
    end
  | RelayDone =>
    match relays_running c with
    | O => Blocked
    | S n =>
      with_group (wg_Done (group c)) (λ g,
        {| group := g; handler := handler c; wrapper_done := wrapper_done c;
           relays_running := n;
           relays_spawned := relays_spawned c;
           others := others c |})
    end
  | WrapperDone =>
    match handler c, wrapper_done c with
    | Returned, false =>
      with_group (wg_Done (group c)) (λ g,
        {| group := g; handler := handler c; wrapper_done := true;
           relays_running := relays_running c;
           relays_spawned := relays_spawned c;
           others := others c |})
    | _, _ => Blocked
    end
  | OtherAdd =>
    with_group (wg_Add (group c) 1) (λ g,
      {| group := g; handler := handler c; wrapper_done := wrapper_done c;
         relays_running := relays_running c;
         relays_spawned := relays_spawned c;
         others := S (others c) |})
  | OtherDone =>
    match others c with
    | O => Blocked
    | S n =>
      with_group (wg_Done (group c)) (λ g,
        {| group := g; handler := handler c; wrapper_done := wrapper_done c;
           relays_running := relays_running c;
           relays_spawned := relays_spawned c;
           others := n |})
    end
  end.

(** A schedule is a list of moves; it runs as long as each move is
    enabled. *)
Fixpoint run (sched : list Move) (c : ConnState) : outcome :=
  match sched with
  | [] => Next c
  | m :: sched' =>
    match step m c with
    | Next c' => run sched' c'
    | o => o
    end
  end.

(** [acceptConnections] on a successful [AcceptTCP]: [Add(1)], then the
    goroutine that runs [handleConnection]; [n] registrations are held by
    the rest of the program at that moment. *)
Definition accepted (n : nat) : ConnState :=
  {| group := Z.of_nat n + 1; handler := AtLoopHead; wrapper_done := false;
     relays_running := 0; relays_spawned := 0; others := n |}.

(** [handleConnection] entered with no registration of its caller: not how
    the server calls it, kept for comparison. *)
Definition unregistered : ConnState :=
  {| group := 0; handler := AtLoopHead; wrapper_done := false;
     relays_running := 0; relays_spawned := 0; others := 0 |}.

End server.

(** ** Vocabulary of the statements, and concrete pools, servers and
    surroundings for the examples *)

Import loadBalancer.
Import server.

(** Whether the backend in slot [p] of the pool is alive. *)
Definition alive_at (s : ServerPool) (p : nat) : bool :=
  match backends s !! p with
  | Some b => IsAlive b
  | None => false
  end.

(** The slots [i mod N, (i+1) mod N, ...], [n] of them. *)
Fixpoint cycle_from (N i : Z) (n : nat) : list nat :=
  match n with
  | O => []
  | S n' => Z.to_nat (i `mod` N) :: cycle_from N (i + 1) n'
  end.

Definition all_alive (s : ServerPool) : Prop :=
  ∀ b, b ∈ backends s → Alive b = true.

Definition none_alive (s : ServerPool) : Prop :=
  ∀ b, b ∈ backends s → Alive b = false.

Definition pool_dead_then_alive : ServerPool :=
  {| backends := [ {| target := "127.0.0.1:9001"; Alive := false |};
                   {| target := "127.0.0.1:9002"; Alive := true |} ];
     current := 1 |}.

Definition pool_of_three (c : Z) : ServerPool :=
  {| backends := [NewBackend "127.0.0.1:9001"; NewBackend "127.0.0.1:9002";
                  NewBackend "127.0.0.1:9003"];
     current := c |}.

(** The probes recorded in a trace: address, timeout and outcome. *)
Definition probe_of (e : Event) : option (string * Z * bool) :=
  match e with
  | EvDialTimeout addr timeout ok => Some (addr, timeout, ok)
  | _ => None
  end.

Definition probe_events (tr : Trace) : list (string * Z * bool) :=
  omap probe_of tr.

Definition probe_record (b : Backend) : string * Z * bool :=
  (target b, probe_timeout, Alive b).

Definition pool_one_dead : ServerPool :=
  {| backends := [ {| target := "127.0.0.1:9001"; Alive := true |};
                   {| target := "127.0.0.1:9002"; Alive := true |};
                   {| target := "127.0.0.1:9003"; Alive := false |} ];
     current := 7 |}.

Definition closed_ok (l : nat) : Event := EvCloseListener l true.

Definition fatal_close (l : nat) : list Event :=
  [EvCloseListener l false; EvLog "Error occurred while closing listener"].

Definition nil_deref : string :=
  "runtime error: invalid memory address or nil pointer dereference".

(** Concrete surroundings for the examples. *)
Definition loopback : TCPAddr :=
  {| IP := [127; 0; 0; 1]; Port := 0; Zone := "" |}.

(** Everything succeeds; a new listener or connection is numbered by the
    length of the history. *)
Definition env_up : Env :=
  {| dial_timeout_ok := λ _ _ _, true;
     resolve_tcp_addr := λ _ _, Some loopback;
     listen_tcp := λ tr _, Some (length tr);
     accept_tcp := λ tr _, Some (length tr);
     close_listener_ok := λ _ _, true;
     sys_socket := λ _, Some 3;
     sys_setsockopt_ok := λ _ _, true;
     sys_connect := λ _ _ _, ConnectOk;
     file_conn := λ tr _, Some (length tr);
     copy_returns := λ _ _ _, true |}.

(** As [env_up], but closing listener 1 fails (it was closed before). *)
Definition env_close_fails : Env :=
  {| dial_timeout_ok := dial_timeout_ok env_up;
     resolve_tcp_addr := resolve_tcp_addr env_up;
     listen_tcp := listen_tcp env_up;
     accept_tcp := accept_tcp env_up;
     close_listener_ok := λ _ l, negb (l =? 1)%nat;
     sys_socket := sys_socket env_up;
     sys_setsockopt_ok := sys_setsockopt_ok env_up;
     sys_connect := sys_connect env_up;
     file_conn := file_conn env_up;
     copy_returns := copy_returns env_up |}.

(** A server with two listeners for one application. *)
Definition server_two_listeners : Server :=
  {| Quit := NewSigChannel;
     listener := {[ Some 1%nat := "app1"; Some 2%nat := "app1" ]};
     listenerGroup := 1;
     serverPool := {[ "app1" := NewServerPool ["127.0.0.1:9001"] ]} |}.

(** As [env_up], but every [ListenTCP] fails (the port is in use). *)
Definition env_port_in_use : Env :=
  {| dial_timeout_ok := dial_timeout_ok env_up;
     resolve_tcp_addr := resolve_tcp_addr env_up;
     listen_tcp := λ _ _, None;
     accept_tcp := accept_tcp env_up;
     close_listener_ok := close_listener_ok env_up;
     sys_socket := sys_socket env_up;
     sys_setsockopt_ok := sys_setsockopt_ok env_up;
     sys_connect := sys_connect env_up;
     file_conn := file_conn env_up;
     copy_returns := copy_returns env_up |}.

(** As [env_up], but no address resolves (the port is out of range). *)
Definition env_unresolved : Env :=
  {| dial_timeout_ok := dial_timeout_ok env_up;
     resolve_tcp_addr := λ _ _, None;
     listen_tcp := listen_tcp env_up;
     accept_tcp := accept_tcp env_up;
     close_listener_ok := close_listener_ok env_up;
     sys_socket := sys_socket env_up;
     sys_setsockopt_ok := sys_setsockopt_ok env_up;
     sys_connect := sys_connect env_up;
     file_conn := file_conn env_up;
     copy_returns := copy_returns env_up |}.

Definition app_on (port : Z) : App :=
  {| Name := "app1"; Ports := [port]; Targets := ["127.0.0.1:9001"] |}.

Definition listen_failed (tr : Trace) : Prop :=
  ∃ laddr, EvListenTCP laddr None ∈ tr.

(** The [ListenTCP] calls recorded in a trace. *)
Definition listen_of (e : Event) : option (option TCPAddr * option nat) :=
  match e with
  | EvListenTCP laddr l => Some (laddr, l)
  | _ => None
  end.

Definition listen_events (tr : Trace) : list (option TCPAddr * option nat) :=
  omap listen_of tr.

Definition total_ports (apps : list App) : nat :=
  sum_list ((λ app, length (Ports app)) <$> apps).



Definition pool_all_dead : ServerPool :=
  {| backends := [ {| target := "127.0.0.1:9001"; Alive := false |};
                   {| target := "127.0.0.1:9002"; Alive := false |} ];
     current := 0 |}.


(** The trace of a connection handed to the relay, and of one whose dial
    failed. *)
Definition relayed (conn : nat) (conn2 : Conn) : list Event :=
  [EvGo "io.Copy(conn2, conn)"; EvRelay conn (conn_id conn2);
   EvCloseConn (conn_id conn2); EvCloseConn conn].

(** The trace of a connection whose relay has not ended: both copies were
    started and nothing is closed. *)
Definition relaying (conn : nat) (conn2 : Conn) : list Event :=
  [EvGo "io.Copy(conn2, conn)"; EvRelay conn (conn_id conn2)].

Definition dial_failed (conn : nat) : list Event :=
  [EvLog "Error dialing remote address"; EvCloseConn conn].

(** What holds while [handleConnection] runs for an accepted connection:
    the registration made by [acceptConnections] is still counted, so the
    counter is at least one; at most one relay was started, and none yet
    when the handler stands at the head of its loop. *)
Definition conn_inv (c : ConnState) : Prop :=
  handler c ≠ Returned
  ∧ wrapper_done c = false
  ∧ group c = 1 + Z.of_nat (relays_running c) + Z.of_nat (others c)
  ∧ (relays_spawned c ≤ 1)%nat
  ∧ (handler c = AtLoopHead → relays_spawned c = 0%nat).

(** *** Vocabulary of the further properties *)

(** The live slots among [0 .. N-1], in the order a scan that starts at
    slot [r] meets them: first those from [r] on, then those before [r]. *)
Definition live_order (s : ServerPool) (r : nat) : list nat :=
  List.filter (alive_at s) (seq r (length (backends s) - r))
  ++ List.filter (alive_at s) (seq 0 r).

(** The live slots in pool order. *)
Definition live_slots (s : ServerPool) : list nat :=
  List.filter (alive_at s) (seq 0 (length (backends s))).

(** The goroutines started, as recorded in a trace. *)
Definition go_of (e : Event) : option string :=
  match e with
  | EvGo what => Some what
  | _ => None
  end.

Definition go_events (tr : Trace) : list string := omap go_of tr.

(** The [AcceptTCP] calls of a trace, the connections they returned, and
    the handlers started. *)
Definition accept_of (e : Event) : option (nat * option nat) :=
  match e with
  | EvAcceptTCP l c => Some (l, c)
  | _ => None
  end.

Definition accepted_conn_of (e : Event) : option nat :=
  match e with
  | EvAcceptTCP _ (Some c) => Some c
  | _ => None
  end.

Definition handle_of (e : Event) : option (nat * string) :=
  match e with
  | EvGoHandle c app => Some (c, app)
  | _ => None
  end.

Definition accept_events (tr : Trace) : list (nat * option nat) := omap accept_of tr.

Definition accepted_conns (tr : Trace) : list nat := omap accepted_conn_of tr.

Definition handlers_started (tr : Trace) : list (nat * string) := omap handle_of tr.

(** Accepts succeed until the listener is closed; then they fail. *)
Definition env_closing : Env :=
  {| dial_timeout_ok := dial_timeout_ok env_up;
     resolve_tcp_addr := resolve_tcp_addr env_up;
     listen_tcp := listen_tcp env_up;
     accept_tcp := λ tr _, if (length tr <? 4)%nat then Some (length tr) else None;
     close_listener_ok := close_listener_ok env_up;
     sys_socket := sys_socket env_up;
     sys_setsockopt_ok := sys_setsockopt_ok env_up;
     sys_connect := sys_connect env_up;
     file_conn := file_conn env_up;
     copy_returns := copy_returns env_up |}.

(** The descriptors a trace opens, and the ways it closes them: by
    [syscall.Close] or through the [os.File] that wraps the descriptor. *)
Inductive FdClose : Type := RawClose (fd : Z) | FileClose (fd : Z).

Definition socket_of (e : Event) : option Z :=
  match e with
  | EvSocket (Some fd) => Some fd
  | _ => None
  end.

Definition fd_close_of (e : Event) : option FdClose :=
  match e with
  | EvCloseFd fd => Some (RawClose fd)
  | EvCloseFile fd => Some (FileClose fd)
  | _ => None
  end.

Definition sockets_opened (tr : Trace) : list Z := omap socket_of tr.

Definition fd_closes (tr : Trace) : list FdClose := omap fd_close_of tr.

(** Whether listener [l] was closed, with success, earlier in the trace. *)
Definition closed_before (l : nat) (tr : Trace) : bool :=
  existsb (λ e, match e with
                | EvCloseListener l' true => (l' =? l)%nat
                | _ => false
                end) tr.

(** As [env_up], but the backend never stops sending: the copy from it
    does not return. *)
Definition env_streaming : Env :=
  {| dial_timeout_ok := dial_timeout_ok env_up;
     resolve_tcp_addr := resolve_tcp_addr env_up;
     listen_tcp := listen_tcp env_up;
     accept_tcp := accept_tcp env_up;
     close_listener_ok := close_listener_ok env_up;
     sys_socket := sys_socket env_up;
     sys_setsockopt_ok := sys_setsockopt_ok env_up;
     sys_connect := sys_connect env_up;
     file_conn := file_conn env_up;
     copy_returns := λ _ _ _, false |}.

(** As [env_up], but closing a listener that is already closed fails. *)
Definition env_strict : Env :=
  {| dial_timeout_ok := dial_timeout_ok env_up;
     resolve_tcp_addr := resolve_tcp_addr env_up;
     listen_tcp := listen_tcp env_up;
     accept_tcp := accept_tcp env_up;
     close_listener_ok := λ tr l, negb (closed_before l tr);
     sys_socket := sys_socket env_up;
     sys_setsockopt_ok := sys_setsockopt_ok env_up;
     sys_connect := sys_connect env_up;
     file_conn := file_conn env_up;
     copy_returns := copy_returns env_up |}.

(** ** The pool: basic facts *)

Lemma NewServerPool_backends (targets : list string) :
  backends (NewServerPool targets) = NewBackend <$> targets.
Proof.
  unfold NewServerPool; simpl.
  assert (H : ∀ acc, foldl (λ bs val, bs ++ [NewBackend val]) acc targets
                     = acc ++ (NewBackend <$> targets)).
  { induction targets as [|t ts IH]; intros acc; simpl.
    - by rewrite app_nil_r.
    - rewrite IH. by rewrite <- app_assoc. }
  apply (H []).
Qed.

Lemma len_pos (s : ServerPool) : backends s ≠ [] → 0 < len s.
Proof. unfold len. destruct (backends s); [done | simpl; lia]. Qed.

Lemma len_store_current s v : len (store_current s v) = len s.
Proof. reflexivity. Qed.

Lemma cycle_from_length N i n : length (cycle_from N i n) = n.
Proof. revert i. induction n as [|n IH]; intros i; simpl; [done | by rewrite IH]. Qed.

Lemma cycle_from_lookup N i n (j : nat) :
  (j < n)%nat →
  cycle_from N i n !! j = Some (Z.to_nat ((i + Z.of_nat j) `mod` N)).
Proof.
  revert i j. induction n as [|n IH]; intros i j Hj; [lia |].
  destruct j as [|j]; simpl.
  - by rewrite Z.add_0_r.
  - rewrite IH by lia. do 3 f_equal. lia.
Qed.

Lemma cycle_from_seq N i n :
  cycle_from N i n = (λ j : nat, Z.to_nat ((i + Z.of_nat j) `mod` N)) <$> seq 0 n.
Proof.
  apply list_eq. intros j.
  destruct (decide (j < n)%nat) as [Hj | Hj].
  - rewrite cycle_from_lookup by done.
    rewrite list_lookup_fmap, lookup_seq_lt by done. done.
  - rewrite !lookup_ge_None_2; [done | |].
    + rewrite length_fmap, length_seq. lia.
    + rewrite cycle_from_length. lia.
Qed.

Lemma lookup_slot (s : ServerPool) (i : Z) :
  0 < len s →
  ∃ b, backends s !! Z.to_nat (i `mod` len s) = Some b
       ∧ IsAlive b = alive_at s (Z.to_nat (i `mod` len s)).
Proof.
  intros HN.
  assert (Hb : 0 ≤ i `mod` len s < len s) by (apply Z.mod_pos_bound; lia).
  unfold alive_at.
  destruct (backends s !! Z.to_nat (i `mod` len s)) as [b|] eqn:Hl; [by exists b |].
  apply lookup_ge_None in Hl. unfold len in *. lia.
Qed.

Lemma find_alive_store (s : ServerPool) (v : Z) (l : list nat) :
  find (alive_at (store_current s v)) l = find (alive_at s) l.
Proof. done. Qed.

(** The scan once it has left its first index: the first live slot of the
    cycle is returned and stored in the cursor. *)
Lemma scan_later (s : ServerPool) (next i : Z) (n : nat) :
  0 < len s → next < i →
  scan s next i n =
    Ok (let r := find (alive_at s) (cycle_from (len s) i n) in
        (r, match r with
            | Some p => store_current s (Z.of_nat p)
            | None => s
            end)).
Proof.
  intros HN. revert i. induction n as [|n IH]; intros i Hi; simpl; [done |].
  destruct (Z.eqb_spec (len s) 0) as [? | _]; [lia |].
  assert (Hb : 0 ≤ i `mod` len s < len s) by (apply Z.mod_pos_bound; lia).
  destruct (lookup_slot s i HN) as (b & -> & ->).
  destruct (alive_at s (Z.to_nat (i `mod` len s))).
  - destruct (Z.eqb_spec i next) as [? | _]; [lia |].
    rewrite Z2Nat.id by lia. done.
  - rewrite IH by lia. done.
Qed.

(** What one selection returns and leaves behind. *)
Lemma GetNextPeer_spec (s : ServerPool) :
  backends s ≠ [] →
  let v := AddUint64 (current s) 1 in
  let next := v `mod` len s in
  let r := find (alive_at s) (cycle_from (len s) next (length (backends s))) in
  GetNextPeer s =
    Ok (r, if alive_at s (Z.to_nat next) then store_current s v
           else match r with
                | Some p => store_current s (Z.of_nat p)
                | None => store_current s v
                end).
Proof.
  intros Hne v next r. pose proof (len_pos s Hne) as HN.
  unfold GetNextPeer, NextIndex.
  destruct (Z.eqb_spec (len s) 0) as [? | _]; [lia |].
  simpl. fold v. fold next.
  rewrite len_store_current.
  replace (Z.to_nat (len s + next - next)) with (length (backends s))
    by (unfold len; lia).
  subst r.
  assert (Hb : 0 ≤ next < len s) by (apply Z.mod_pos_bound; lia).
  destruct (length (backends s)) as [|n] eqn:Hlen; [unfold len in HN; lia |].
  cbn [cycle_from scan find].
  rewrite len_store_current.
  destruct (Z.eqb_spec (len s) 0) as [? | _]; [lia |].
  rewrite (Z.mod_small next) by lia.
  pose proof (lookup_slot s next HN) as (b & Hl & Ha).
  rewrite (Z.mod_small next) in Hl, Ha by lia.
  simpl backends at 1. rewrite Hl, Ha.
  destruct (alive_at s (Z.to_nat next)).
  - rewrite Z.eqb_refl. done.
  - rewrite scan_later by (rewrite ?len_store_current; lia).
    rewrite len_store_current, find_alive_store. simpl.
    destruct (find (alive_at s) (cycle_from (len s) (next + 1) n)); done.
Qed.

Lemma alive_at_all (s : ServerPool) (p : nat) :
  all_alive s → (p < length (backends s))%nat → alive_at s p = true.
Proof.
  intros Hall Hp. unfold alive_at.
  destruct (backends s !! p) as [b|] eqn:Hl.
  - apply Hall. by eapply list_elem_of_lookup_2.
  - apply lookup_ge_None in Hl. lia.
Qed.

Lemma alive_at_none (s : ServerPool) (p : nat) :
  none_alive s → alive_at s p = false.
Proof.
  intros Hnone. unfold alive_at.
  destruct (backends s !! p) as [b|] eqn:Hl; [|done].
  apply Hnone. by eapply list_elem_of_lookup_2.
Qed.

Lemma slot_in_range (s : ServerPool) (i : Z) :
  0 < len s → (Z.to_nat (i `mod` len s) < length (backends s))%nat.
Proof.
  intros HN.
  assert (Hb : 0 ≤ i `mod` len s < len s) by (apply Z.mod_pos_bound; lia).
  unfold len in *. lia.
Qed.

Lemma AddUint64_assoc (c x : Z) :
  AddUint64 (AddUint64 c 1) x = AddUint64 c (1 + x).
Proof.
  unfold AddUint64. rewrite Zplus_mod_idemp_l. f_equal. lia.
Qed.

Lemma AddUint64_range (c x : Z) : wf_uint64 (AddUint64 c x).
Proof. unfold wf_uint64, AddUint64, uint64_modulus. apply Z.mod_pos_bound. lia. Qed.

(** The first hit of [find], by position. *)
Lemma find_first {A} (f : A → bool) (l : list A) (x : A) :
  find f l = Some x →
  ∃ j : nat, l !! j = Some x ∧ f x = true
             ∧ ∀ (j' : nat) y, (j' < j)%nat → l !! j' = Some y → f y = false.
Proof.
  induction l as [|a l IH]; simpl; [done |].
  destruct (f a) eqn:Hfa.
  - intros [= ->]. exists 0%nat. repeat split; [done | intros; lia].
  - intros Hfind. destruct (IH Hfind) as (j & Hj & Hx & Hbefore).
    exists (S j). repeat split; [done | done |].
    intros [|j'] y Hlt Hy; simpl in Hy.
    + by injection Hy as <-.
    + apply (Hbefore j'); [lia | done].
Qed.

Lemma find_none_all {A} (f : A → bool) (l : list A) :
  find f l = None ↔ ∀ x, x ∈ l → f x = false.
Proof.
  induction l as [|a l IH]; simpl.
  - split; [intros _ x Hx; by apply elem_of_nil in Hx | done].
  - destruct (f a) eqn:Hfa.
    + split; [done |]. intros H. specialize (H a (list_elem_of_here _ _)). congruence.
    + rewrite IH. split.
      * intros H x Hx. apply elem_of_cons in Hx as [-> | Hx]; [done | by apply H].
      * intros H x Hx. apply H. by apply list_elem_of_further.
Qed.

(** One selection in a pool whose backends are all alive. *)
Lemma GetNextPeer_all_alive (s : ServerPool) :
  backends s ≠ [] → all_alive s →
  GetNextPeer s =
    Ok (Some (Z.to_nat (AddUint64 (current s) 1 `mod` len s)),
        store_current s (AddUint64 (current s) 1)).
Proof.
  intros Hne Hall. pose proof (len_pos s Hne) as HN.
  rewrite GetNextPeer_spec by done.
  assert (Ha : alive_at s (Z.to_nat (AddUint64 (current s) 1 `mod` len s)) = true)
    by (apply alive_at_all; [done | by apply slot_in_range]).
  rewrite Ha.
  destruct (length (backends s)) as [|n] eqn:Hlen; [unfold len in HN; lia |].
  cbn [cycle_from find].
  rewrite Z.mod_mod by lia. by rewrite Ha.
Qed.

(** [k] selections in a row in such a pool: the [j]-th one reads the
    counter at [current + 1 + j], wrapped at [2^64]. *)
Lemma select_many_all_alive (k : nat) (s : ServerPool) :
  backends s ≠ [] → all_alive s →
  ∃ s', select_many k s =
          Ok ((λ j : nat, Some (Z.to_nat
                 (AddUint64 (current s) (1 + Z.of_nat j) `mod` len s)))
                <$> seq 0 k, s')
        ∧ backends s' = backends s
        ∧ (wf_uint64 (current s) → current s' = AddUint64 (current s) (Z.of_nat k)).
Proof.
  revert s. induction k as [|k IH]; intros s Hne Hall.
  - exists s. split; [done | split; [done |]].
    intros Hwf. unfold AddUint64, wf_uint64 in *. rewrite Z.add_0_r.
    by rewrite Z.mod_small.
  - cbn [select_many]. rewrite GetNextPeer_all_alive by done. simpl.
    set (s1 := store_current s (AddUint64 (current s) 1)).
    destruct (IH s1) as (s' & Hrun & Hbs & Hcur); [done | done |].
    rewrite Hrun. simpl. exists s'. split; [| split].
    + do 2 f_equal. rewrite Z.add_0_r. f_equal.
      rewrite <- fmap_S_seq, <- list_fmap_compose.
      apply list_fmap_ext. intros _ j _. simpl.
      rewrite AddUint64_assoc. do 4 f_equal. lia.
    + done.
    + intros _. rewrite Hcur by apply AddUint64_range. simpl.
      rewrite AddUint64_assoc. f_equal. lia.
Qed.

Lemma cycle_covers (N i : Z) (p : nat) :
  0 < N → Z.of_nat p < N → p ∈ cycle_from N i (Z.to_nat N).
Proof.
  intros HN Hp.
  assert (Hj : 0 ≤ (Z.of_nat p - i) `mod` N < N) by (apply Z.mod_pos_bound; lia).
  apply list_elem_of_lookup. exists (Z.to_nat ((Z.of_nat p - i) `mod` N)).
  rewrite cycle_from_lookup by lia.
  rewrite Z2Nat.id by lia. rewrite Zplus_mod_idemp_r.
  replace (i + (Z.of_nat p - i)) with (Z.of_nat p) by lia.
  rewrite Z.mod_small by lia. f_equal. lia.
Qed.

Lemma none_alive_iff (s : ServerPool) :
  none_alive s ↔ ∀ p, alive_at s p = false.
Proof.
  split; [intros H p; by apply alive_at_none |].
  intros H b Hb. apply list_elem_of_lookup in Hb as [p Hp].
  specialize (H p). unfold alive_at in H. by rewrite Hp in H.
Qed.

Lemma find_cycle_none (s : ServerPool) (i : Z) :
  0 < len s →
  find (alive_at s) (cycle_from (len s) i (length (backends s))) = None
  ↔ none_alive s.
Proof.
  intros HN. rewrite find_none_all, none_alive_iff. split.
  - intros H p. destruct (decide (p < length (backends s))%nat) as [Hp | Hp].
    + apply H. replace (length (backends s)) with (Z.to_nat (len s))
        by (unfold len; lia).
      apply cycle_covers; [done | unfold len; lia].
    + unfold alive_at. by rewrite lookup_ge_None_2 by lia.
  - intros H p _. apply H.
Qed.

(** Selections in a pool with no live backend. *)
Lemma select_many_none_alive (k : nat) (s : ServerPool) :
  backends s ≠ [] → none_alive s →
  ∃ s', select_many k s = Ok (replicate k None, s') ∧ backends s' = backends s.
Proof.
  revert s. induction k as [|k IH]; intros s Hne Hnone; [by exists s |].
  pose proof (len_pos s Hne) as HN.
  cbn [select_many]. rewrite GetNextPeer_spec by done.
  rewrite alive_at_none by done.
  rewrite (proj2 (find_cycle_none s _ HN)) by done. simpl.
  destruct (IH (store_current s (AddUint64 (current s) 1))) as (s' & -> & Hbs);
    [done | done |].
  by exists s'.
Qed.

(** ** Selection *)

(** C10.  A pool built from an empty target list has no backend, and every
    selection on a pool without backends panics on the modulo by zero:
    [NextIndex] and [GetNextPeer] return exactly when the pool has at least
    one backend.  So an application configured with no targets gets an
    empty pool from [NewServer], and routing any connection to it panics. *)
Theorem empty_pool_selection_panics :
  backends (NewServerPool []) = []
  ∧ NextIndex (NewServerPool []) = Panic "runtime error: integer divide by zero"
  ∧ GetNextPeer (NewServerPool []) = Panic "runtime error: integer divide by zero"
  ∧ (∀ s, backends s = [] →
          NextIndex s = Panic "runtime error: integer divide by zero"
          ∧ GetNextPeer s = Panic "runtime error: integer divide by zero")
  ∧ (∀ s, is_Ok (NextIndex s) ↔ backends s ≠ [])
  ∧ (∀ s, is_Ok (GetNextPeer s) ↔ backends s ≠ [])
  ∧ (∀ E name ports tr conn tr',
       let s := (NewServer E [ {| Name := name; Ports := ports; Targets := [] |} ] tr).1 in
       serverPool s !! name = Some (NewServerPool [])
       ∧ (proxyConnection E s conn name tr').1
         = Panic "runtime error: integer divide by zero").
Proof.
  assert (Hempty : ∀ s, backends s = [] →
            NextIndex s = Panic "runtime error: integer divide by zero"
            ∧ GetNextPeer s = Panic "runtime error: integer divide by zero").
  { intros s Hs. unfold GetNextPeer, NextIndex, len. rewrite Hs. by simpl. }
  split; [done |]. split; [done |]. split; [done |]. split; [exact Hempty |].
  split; [| split]; [intros s; split | intros s; split |].
  - intros [a Ha] Hs. destruct (Hempty s Hs) as [Hp _]. congruence.
  - intros Hne. unfold NextIndex.
    pose proof (len_pos s Hne).
    destruct (Z.eqb_spec (len s) 0); [lia | by eexists].
  - intros [a Ha] Hs. destruct (Hempty s Hs) as [_ Hp]. congruence.
  - intros Hne. rewrite GetNextPeer_spec by done. by eexists.
  - intros E name ports tr conn tr'. unfold NewServer. cbn [foldl].
    unfold startApp. simpl.
    destruct (foldl (listenOnPort E name) (∅, tr) ports) as [ls tr1]. simpl.
    split; [by rewrite lookup_insert_eq |].
    unfold proxyConnection. simpl. by rewrite lookup_insert_eq.
Qed.

(** C2, amended.  In a pool with at least one backend, [GetNextPeer]
    advances the cursor by one (wrapping at [2^64]) and reduces it modulo
    the size to get [next], looks at the slots [next, next+1, ...,
    next+size-1] (each modulo the size) in that order and returns the first
    one whose backend is alive.  The cursor it leaves is the advanced
    counter when the backend at [next] is the one returned, and the index
    of the returned backend otherwise.  It never returns a backend that is
    not alive; it returns nil exactly when no backend is alive, leaving the
    cursor advanced by one, and then so does every further call as long as
    the flags stay as they are. *)
Theorem GetNextPeer_first_alive (s : ServerPool) :
  backends s ≠ [] →
  let v := AddUint64 (current s) 1 in
  let next := v `mod` len s in
  let slot (j : nat) := Z.to_nat ((next + Z.of_nat j) `mod` len s) in
  ∃ r s',
    GetNextPeer s = Ok (r, s') ∧ backends s' = backends s
    ∧ NextIndex s = Ok (next, store_current s v)
    ∧ (∀ p, r = Some p →
         alive_at s p = true
         ∧ ∃ j : nat, (j < length (backends s))%nat ∧ p = slot j
             ∧ (∀ j' : nat, (j' < j)%nat → alive_at s (slot j') = false)
             ∧ current s' = (if decide (j = 0%nat) then v else Z.of_nat p))
    ∧ (r = None → current s' = v)
    ∧ (∀ p, alive_at s p = false → r ≠ Some p)
    ∧ (r = None ↔ none_alive s)
    ∧ (none_alive s →
         ∀ k, ∃ s'', select_many k s = Ok (replicate k None, s'')
                     ∧ backends s'' = backends s).
Proof.
  intros Hne v next slot. pose proof (len_pos s Hne) as HN.
  pose proof (GetNextPeer_spec s Hne) as Hspec. cbv zeta in Hspec.
  fold v in Hspec. fold next in Hspec.
  set (r := find (alive_at s) (cycle_from (len s) next (length (backends s)))) in *.
  assert (Hb : 0 ≤ next < len s) by (apply Z.mod_pos_bound; lia).
  assert (Hslot0 : slot 0%nat = Z.to_nat next).
  { unfold slot. rewrite Z.add_0_r. by rewrite Z.mod_small. }
  assert (Hfirst : ∀ p, r = Some p →
            alive_at s p = true
            ∧ ∃ j : nat, (j < length (backends s))%nat ∧ p = slot j
                ∧ ∀ j' : nat, (j' < j)%nat → alive_at s (slot j') = false).
  { intros p Hr. apply find_first in Hr as (j & Hj & Hp & Hbefore).
    pose proof (lookup_lt_Some _ _ _ Hj) as Hlt. rewrite cycle_from_length in Hlt.
    rewrite cycle_from_lookup in Hj by done. injection Hj as <-.
    split; [done |]. exists j. split; [done |]. split; [done |].
    intros j' Hj'. apply (Hbefore j'); [done |].
    apply cycle_from_lookup. lia. }
  eexists r, _. split; [exact Hspec |]. split.
  { destruct (alive_at s (Z.to_nat next)); [done |]. by destruct r. }
  split.
  { unfold NextIndex. destruct (Z.eqb_spec (len s) 0); [lia | done]. }
  split.
  { intros p Hr. destruct (Hfirst p Hr) as (Ha & j & Hj & Hp & Hbefore).
    split; [done |]. exists j. split; [done |]. split; [done |].
    split; [done |].
    destruct (decide (j = 0%nat)) as [-> | Hpos].
    - rewrite Hslot0 in Hp. subst p. by rewrite Ha.
    - rewrite <- Hslot0, (Hbefore 0%nat) by lia. by rewrite Hr. }
  split.
  { intros Hr. destruct (alive_at s (Z.to_nat next)); [done |]. by rewrite Hr. }
  split.
  { intros p Hp Hr. destruct (Hfirst p Hr) as [Ha _]. congruence. }
  split; [apply find_cycle_none; done |].
  intros Hnone k. by apply select_many_none_alive.
Qed.

Lemma GetNextPeer_first_alive_witness :
  backends pool_dead_then_alive ≠ []
  ∧ ∃ r s', GetNextPeer pool_dead_then_alive = Ok (r, s')
            ∧ backends s' = backends pool_dead_then_alive
            ∧ NextIndex pool_dead_then_alive
              = Ok (0, store_current pool_dead_then_alive 2)
            ∧ (∀ p, alive_at pool_dead_then_alive p = false → r ≠ Some p).
Proof.
  assert (Hne : backends pool_dead_then_alive ≠ []) by discriminate.
  split; [exact Hne |].
  destruct (GetNextPeer_first_alive pool_dead_then_alive Hne)
    as (r & s' & Hcall & Hbs & Hnext & _ & _ & Hdead & _).
  exists r, s'. split; [exact Hcall |]. split; [exact Hbs |].
  split; [exact Hnext | exact Hdead].
Defined.

(** C2 as stated fails for a pool without backends: no backend of it is
    alive, yet a selection does not report nil, it panics. *)
Lemma GetNextPeer_empty_pool_not_nil :
  none_alive (NewServerPool [])
  ∧ GetNextPeer (NewServerPool []) = Panic "runtime error: integer divide by zero"
  ∧ ¬ ∃ s', GetNextPeer (NewServerPool []) = Ok (None, s').
Proof.
  split; [| split].
  - intros b Hb. by apply elem_of_nil in Hb.
  - reflexivity.
  - intros [s' Hs']. discriminate Hs'.
Qed.

(** ** Round robin *)

(** The slots [(c + j) mod N] for [j = 0 .. N-1] are the slots
    [0 .. N-1], each once. *)
Lemma rotation_Permutation (N : nat) (c : Z) :
  (0 < N)%nat →
  (λ j : nat, Z.to_nat ((c + Z.of_nat j) `mod` Z.of_nat N)) <$> seq 0 N
  ≡ₚ seq 0 N.
Proof.
  intros HN.
  apply submseteq_length_Permutation;
    [| by rewrite length_fmap].
  apply NoDup_submseteq.
  - apply NoDup_fmap_2_strong; [| apply NoDup_seq].
    intros x y Hx Hy Hxy.
    apply elem_of_seq in Hx, Hy.
    assert (Hbx : 0 ≤ (c + Z.of_nat x) `mod` Z.of_nat N < Z.of_nat N)
      by (apply Z.mod_pos_bound; lia).
    assert (Hby : 0 ≤ (c + Z.of_nat y) `mod` Z.of_nat N < Z.of_nat N)
      by (apply Z.mod_pos_bound; lia).
    apply Z2Nat.inj in Hxy; [| lia | lia].
    assert (Hd : ((c + Z.of_nat x) - (c + Z.of_nat y)) `mod` Z.of_nat N = 0).
    { rewrite Zminus_mod, Hxy, Z.sub_diag. apply Z.mod_0_l. lia. }
    apply Z.mod_divide in Hd; [| lia].
    destruct Hd as [q Hq].
    assert (Hq0 : q = 0).
    { destruct (Z_lt_le_dec q 1) as [Hlo | Hhi];
        [destruct (Z_lt_le_dec (-1) q) as [Hlo' | Hhi']; [lia | nia] | nia]. }
    subst q. lia.
  - intros p Hp. apply list_elem_of_fmap in Hp as (j & -> & _).
    apply elem_of_seq.
    assert (Hb : 0 ≤ (c + Z.of_nat j) `mod` Z.of_nat N < Z.of_nat N)
      by (apply Z.mod_pos_bound; lia).
    lia.
Qed.

(** When the counter does not wrap, or the pool size divides [2^64], the
    slot read from the wrapped counter is the slot of the plain sum. *)
Lemma wrapped_slot (c x N : Z) :
  0 < N → 0 ≤ c → 0 ≤ x →
  c + x < uint64_modulus ∨ (N | uint64_modulus) →
  AddUint64 c x `mod` N = (c + x) `mod` N.
Proof.
  intros HN Hc Hx [Hsmall | Hdiv]; unfold AddUint64.
  - by rewrite (Z.mod_small (c + x)) by lia.
  - by apply Z.mod_mod_divide.
Qed.

(** C1, amended.  In a pool of [N >= 1] backends that are all alive, as long
    as the 64-bit counter does not wrap during the calls (or [N] divides
    [2^64]), [N] consecutive calls of [GetNextPeer] return the slots
    [(current + 1) mod N, (current + 2) mod N, ...]: every backend exactly
    once, in configured order from the slot after the cursor; the call
    after them returns the first of them again. *)
Theorem round_robin_coverage (s : ServerPool) (N : nat) :
  length (backends s) = N → (0 < N)%nat → all_alive s →
  wf_uint64 (current s) →
  current s + Z.of_nat N + 1 < uint64_modulus ∨ (Z.of_nat N | uint64_modulus) →
  let pick (j : nat) :=
    Some (Z.to_nat ((current s + 1 + Z.of_nat j) `mod` Z.of_nat N)) in
  ∃ s', select_many (N + 1) s = Ok ((pick <$> seq 0 N) ++ [pick 0%nat], s')
        ∧ (pick <$> seq 0 N) ≡ₚ (Some <$> seq 0 N)
        ∧ backends s' = backends s.
Proof.
  intros Hlen HN Hall Hwf Hnowrap pick.
  assert (Hne : backends s ≠ []) by (destruct (backends s); simpl in *; [lia | done]).
  destruct (select_many_all_alive (N + 1) s Hne Hall) as (s' & Hrun & Hbs & _).
  exists s'. split; [| split; [| done]].
  - rewrite Hrun. do 2 f_equal.
    rewrite seq_app, fmap_app. simpl.
    assert (HlenZ : len s = Z.of_nat N) by (unfold len; by rewrite Hlen).
    destruct Hwf as [Hc0 _].
    f_equal.
    + apply list_fmap_ext. intros i j Hj.
      apply lookup_seq in Hj as [-> Hi]. subst pick. simpl. do 2 f_equal.
      rewrite HlenZ, wrapped_slot; [f_equal; lia | lia | lia | lia |].
      destruct Hnowrap; [left; lia | by right].
    + subst pick. simpl. do 3 f_equal.
      rewrite HlenZ, wrapped_slot; [| lia | lia | lia |].
      * replace (current s + (1 + Z.of_nat N))
          with (current s + 1 + 0 + 1 * Z.of_nat N) by lia.
        apply Z.mod_add. lia.
      * destruct Hnowrap; [left; lia | by right].
  - subst pick.
    rewrite (list_fmap_compose
               (λ j : nat, Z.to_nat ((current s + 1 + Z.of_nat j) `mod` Z.of_nat N))
               Some).
    apply fmap_Permutation. by apply rotation_Permutation.
Qed.

Lemma pool_of_three_all_alive (c : Z) : all_alive (pool_of_three c).
Proof.
  intros b Hb. simpl in Hb.
  repeat (apply elem_of_cons in Hb as [-> | Hb]; [done |]).
  by apply elem_of_nil in Hb.
Qed.

Lemma round_robin_coverage_witness :
  ∃ s', select_many 4 (pool_of_three 0)
        = Ok ([Some 1; Some 2; Some 0; Some 1]%nat, s')
        ∧ [Some 1; Some 2; Some 0]%nat ≡ₚ [Some 0; Some 1; Some 2]%nat
        ∧ backends s' = backends (pool_of_three 0).
Proof.
  apply (round_robin_coverage (pool_of_three 0) 3).
  - reflexivity.
  - lia.
  - apply pool_of_three_all_alive.
  - unfold wf_uint64, uint64_modulus. simpl. lia.
  - left. unfold uint64_modulus. simpl. lia.
Defined.

(** C1 as stated fails where the counter wraps: with three live backends
    and the counter at [2^64 - 2], three calls return slot 0 twice and slot
    2 not at all ([2^64 - 1] and [0] are both multiples of 3). *)
Lemma round_robin_breaks_at_wrap :
  wf_uint64 (current (pool_of_three (2 ^ 64 - 2)))
  ∧ select_many 3 (pool_of_three (2 ^ 64 - 2))
    = Ok ([Some 0; Some 0; Some 1]%nat, pool_of_three 1)
  ∧ ¬ ([Some 0; Some 0; Some 1]%nat ≡ₚ [Some 0; Some 1; Some 2]%nat).
Proof.
  split; [| split].
  - unfold wf_uint64, uint64_modulus. simpl. lia.
  - vm_compute. reflexivity.
  - intros Hperm.
    assert (H2 : Some 2%nat ∈ [Some 0; Some 0; Some 1]%nat).
    { rewrite Hperm. do 2 apply list_elem_of_further. apply list_elem_of_here. }
    repeat (apply elem_of_cons in H2 as [H2 | H2]; [discriminate |]).
    by apply elem_of_nil in H2.
Qed.

(** The counter value of that example is one a pool reaches: from a fresh
    pool of live backends, [k] selections leave the counter at [k]. *)
Lemma counter_after_selections (targets : list string) (k : nat) :
  targets ≠ [] → Z.of_nat k < uint64_modulus →
  ∃ picks s', select_many k (NewServerPool targets) = Ok (picks, s')
              ∧ backends s' = backends (NewServerPool targets)
              ∧ current s' = Z.of_nat k.
Proof.
  intros Hne Hk.
  assert (Hbs : backends (NewServerPool targets) ≠ []).
  { rewrite NewServerPool_backends. by destruct targets. }
  assert (Hall : all_alive (NewServerPool targets)).
  { intros b. rewrite NewServerPool_backends.
    intros Hb. apply list_elem_of_fmap in Hb as (t & -> & _). done. }
  destruct (select_many_all_alive k _ Hbs Hall) as (s' & Hrun & Hbs' & Hcur).
  eexists _, s'. split; [exact Hrun |]. split; [done |].
  rewrite Hcur.
  - unfold AddUint64. simpl. apply Z.mod_small. lia.
  - simpl. unfold wf_uint64, uint64_modulus. lia.
Qed.

(** ** The health checker *)

Lemma probe_events_app (tr1 tr2 : Trace) :
  probe_events (tr1 ++ tr2) = probe_events tr1 ++ probe_events tr2.
Proof. apply omap_app. Qed.

Lemma isBackendAlive_spec (E : Env) (addr : string) (tr : Trace) :
  let ok := dial_timeout_ok E tr addr probe_timeout in
  (isBackendAlive E addr tr).1 = ok
  ∧ probe_events (isBackendAlive E addr tr).2
    = probe_events tr ++ [(addr, probe_timeout, ok)].
Proof.
  unfold isBackendAlive.
  destruct (dial_timeout_ok E tr addr probe_timeout); simpl;
    rewrite !probe_events_app; simpl; by rewrite app_nil_r.
Qed.

(** The rounds of [healthCheckItr] from slot [i] on: the slots before [i]
    are left alone, every later one is probed once, in order, and holds the
    outcome of its probe. *)
Lemma healthCheck_fold (E : Env) (k i : nat) (bs : list Backend) (tr : Trace) :
  (i + k)%nat = length bs →
  ∃ bs' tr', foldl (healthCheckOne E) (bs, tr) (seq i k) = (bs', tr')
    ∧ length bs' = length bs
    ∧ target <$> bs' = target <$> bs
    ∧ take i bs' = take i bs
    ∧ probe_events tr' = probe_events tr ++ (probe_record <$> drop i bs').
Proof.
  revert i bs tr. induction k as [|k IH]; intros i bs tr Hlen.
  - exists bs, tr. simpl. repeat (split; [done |]).
    rewrite drop_ge by lia. by rewrite app_nil_r.
  - cbn [seq foldl].
    destruct (lookup_lt_is_Some_2 bs i) as [b Hb]; [lia |].
    unfold healthCheckOne at 2. rewrite Hb.
    pose proof (isBackendAlive_spec E (target b) tr) as [Hok Hprobe].
    destruct (isBackendAlive E (target b) tr) as [alive tr1] eqn:Hcall.
    simpl in Hok, Hprobe.
    set (bs1 := <[i := SetAlive b alive]> bs).
    set (tr2 := tr1 ++ _).
    destruct (IH (S i) bs1 tr2) as (bs' & tr' & Hfold & Hl' & Ht' & Htake & Hp').
    { subst bs1. rewrite length_insert. lia. }
    exists bs', tr'. split; [exact Hfold |].
    assert (Hi : bs' !! i = Some (SetAlive b alive)).
    { rewrite <- (lookup_take_lt bs' (S i) i) by lia. rewrite Htake.
      rewrite lookup_take_lt by lia. subst bs1.
      apply list_lookup_insert_eq. lia. }
    split; [| split; [| split]].
    + subst bs1. by rewrite Hl', length_insert.
    + rewrite Ht'. subst bs1. rewrite list_fmap_insert. simpl.
      apply list_insert_id. by rewrite list_lookup_fmap, Hb.
    + assert (Ht : take i (take (S i) bs') = take i (take (S i) bs1))
        by (by rewrite Htake).
      rewrite !take_take in Ht. rewrite !Nat.min_l in Ht by lia.
      rewrite Ht. subst bs1. apply take_insert_ge. lia.
    + rewrite Hp'. subst tr2. rewrite probe_events_app, Hprobe. simpl.
      rewrite app_nil_r, <- app_assoc. f_equal.
      rewrite (drop_S bs' _ i Hi). simpl. f_equal.
      unfold probe_record. simpl. by rewrite Hok.
Qed.

Lemma healthCheckItr_spec (E : Env) (s : ServerPool) (tr : Trace) :
  ∃ s' tr', healthCheckItr E s tr = (s', tr')
    ∧ current s' = current s
    ∧ target <$> backends s' = target <$> backends s
    ∧ probe_events tr' = probe_events tr ++ (probe_record <$> backends s').
Proof.
  unfold healthCheckItr.
  destruct (healthCheck_fold E (length (backends s)) 0 (backends s) tr)
    as (bs' & tr' & Hfold & _ & Ht & _ & Hp); [done |].
  rewrite Hfold. by eexists _, _.
Qed.

(** What one round does to slot [i]. *)
Lemma healthCheckOne_at (E : Env) (bs : list Backend) (tr : Trace)
    (i : nat) (b : Backend) :
  bs !! i = Some b →
  ∃ tr', healthCheckOne E (bs, tr) i
         = (<[i := SetAlive b (dial_timeout_ok E tr (target b) probe_timeout)]> bs,
            tr')
         ∧ ∀ bs0 b0, bs0 !! i = Some b0 → target b0 = target b →
             (healthCheckOne E (bs0, tr) i).2 = tr'.
Proof.
  intros Hb. unfold healthCheckOne. rewrite Hb. unfold isBackendAlive.
  destruct (dial_timeout_ok E tr (target b) probe_timeout) eqn:Hok.
  - eexists. split; [reflexivity |].
    intros bs0 b0 -> ->. by rewrite Hok.
  - eexists. split; [reflexivity |].
    intros bs0 b0 -> ->. by rewrite Hok.
Qed.

Lemma take_S_insert {A} (l : list A) (i : nat) (x : A) :
  (i < length l)%nat → take (S i) (<[i := x]> l) = take i l ++ [x].
Proof.
  intros Hi.
  rewrite (take_S_r _ i x) by (by apply list_lookup_insert_eq).
  by rewrite take_insert_ge by lia.
Qed.

(** The body of the loop for slot [i], event by event: the probe comes
    first, asked of the surroundings as they are then, and no other probe
    follows in the same round of the loop. *)
Lemma healthCheckOne_probe (E : Env) (bs : list Backend) (tr : Trace)
    (i : nat) (b : Backend) :
  bs !! i = Some b →
  let ok := dial_timeout_ok E tr (target b) probe_timeout in
  ∃ tail, healthCheckOne E (bs, tr) i
          = (<[i := SetAlive b ok]> bs,
             tr ++ EvDialTimeout (target b) probe_timeout ok :: tail)
          ∧ probe_events tail = [].
Proof.
  intros Hb ok. unfold healthCheckOne. rewrite Hb. unfold isBackendAlive.
  fold ok. destruct ok; simpl.
  - eexists. split; [by rewrite <- !app_assoc |]. done.
  - eexists. split; [by rewrite <- !app_assoc |]. done.
Qed.

(** The loop only adds to the history. *)
Lemma healthCheck_fold_extends (E : Env) (l : list nat) (bs : list Backend)
    (tr : Trace) :
  ∃ more, (foldl (healthCheckOne E) (bs, tr) l).2 = tr ++ more.
Proof.
  revert bs tr. induction l as [|i l IH]; intros bs tr.
  - exists []. by rewrite app_nil_r.
  - cbn [foldl].
    destruct (bs !! i) as [b|] eqn:Hb.
    + destruct (healthCheckOne_probe E bs tr i b Hb) as (tail & -> & _).
      destruct (IH (<[i := SetAlive b (dial_timeout_ok E tr (target b) probe_timeout)]> bs)
                   (tr ++ EvDialTimeout (target b) probe_timeout
                            (dial_timeout_ok E tr (target b) probe_timeout) :: tail))
        as [more ->].
      eexists. by rewrite <- app_assoc.
    + unfold healthCheckOne at 2. rewrite Hb. apply IH.
Qed.

(** The probe of slot [j] in the rounds from slot [i] on: it is asked of
    the surroundings after the probes of the slots [i .. j-1], for the
    target of the backend in slot [j], and its answer is the flag that
    backend holds at the end. *)
Lemma healthCheck_fold_probe (E : Env) (k i : nat) (bs : list Backend)
    (tr : Trace) (j : nat) (b : Backend) :
  (i + k)%nat = length bs → (i ≤ j)%nat → bs !! j = Some b →
  ∃ pre rest,
    let ok := dial_timeout_ok E (tr ++ pre) (target b) probe_timeout in
    (foldl (healthCheckOne E) (bs, tr) (seq i k)).2
    = (tr ++ pre) ++ EvDialTimeout (target b) probe_timeout ok :: rest
    ∧ (foldl (healthCheckOne E) (bs, tr) (seq i k)).1 !! j
      = Some (SetAlive b ok)
    ∧ length (probe_events pre) = (j - i)%nat.
Proof.
  revert i bs tr. induction k as [|k IH]; intros i bs tr Hlen Hij Hb.
  - apply lookup_lt_Some in Hb. lia.
  - cbn [seq foldl].
    destruct (lookup_lt_is_Some_2 bs i) as [bi Hbi]; [lia |].
    destruct (healthCheckOne_probe E bs tr i bi Hbi) as (tail & Hone & Htail).
    rewrite Hone.
    set (oki := dial_timeout_ok E tr (target bi) probe_timeout) in *.
    set (bs1 := <[i := SetAlive bi oki]> bs).
    set (tr2 := tr ++ EvDialTimeout (target bi) probe_timeout oki :: tail).
    assert (Hlen1 : (S i + k)%nat = length bs1)
      by (subst bs1; rewrite length_insert; lia).
    destruct (decide (j = i)) as [-> | Hne].
    + assert (b = bi) by congruence. subst bi.
      destruct (healthCheck_fold_extends E (seq (S i) k) bs1 tr2) as [more Hmore].
      destruct (healthCheck_fold E k (S i) bs1 tr2 Hlen1)
        as (bs' & tr' & Hfold & _ & _ & Htake & _).
      exists [], (tail ++ more). cbv zeta. rewrite app_nil_r. fold oki.
      split; [| split].
      * rewrite Hmore. subst tr2. by rewrite <- app_assoc.
      * rewrite Hfold. simpl.
        rewrite <- (lookup_take_lt bs' (S i) i) by lia. rewrite Htake.
        rewrite lookup_take_lt by lia. subst bs1.
        apply list_lookup_insert_eq. lia.
      * simpl. lia.
    + assert (Hb1 : bs1 !! j = Some b)
        by (subst bs1; rewrite list_lookup_insert_ne by done; exact Hb).
      destruct (IH (S i) bs1 tr2 Hlen1 ltac:(lia) Hb1)
        as (pre & rest & Htr & Hflag & Hcount).
      cbv zeta in Htr, Hflag.
      exists (EvDialTimeout (target bi) probe_timeout oki :: tail ++ pre), rest.
      cbv zeta.
      assert (Hsame : tr ++ EvDialTimeout (target bi) probe_timeout oki :: tail ++ pre
                      = tr2 ++ pre)
        by (subst tr2; by rewrite <- app_assoc).
      rewrite Hsame. split; [exact Htr |]. split; [exact Hflag |].
      change (EvDialTimeout (target bi) probe_timeout oki :: tail ++ pre)
        with ([EvDialTimeout (target bi) probe_timeout oki] ++ tail ++ pre).
      rewrite !probe_events_app, !length_app, Htail, Hcount. simpl. lia.
Qed.

(** One [healthCheckItr], backend by backend. *)
Lemma healthCheckItr_probe (E : Env) (s : ServerPool) (tr : Trace)
    (j : nat) (b : Backend) :
  backends s !! j = Some b →
  ∃ pre rest,
    let ok := dial_timeout_ok E (tr ++ pre) (target b) probe_timeout in
    (healthCheckItr E s tr).2
    = (tr ++ pre) ++ EvDialTimeout (target b) probe_timeout ok :: rest
    ∧ backends (healthCheckItr E s tr).1 !! j
      = Some {| target := target b; Alive := ok |}
    ∧ length (probe_events pre) = j.
Proof.
  intros Hb.
  destruct (healthCheck_fold_probe E (length (backends s)) 0 (backends s) tr j b)
    as (pre & rest & Htr & Hflag & Hcount); [done | lia | done |].
  exists pre, rest. cbv zeta in *. unfold healthCheckItr.
  destruct (foldl (healthCheckOne E) (backends s, tr) _) as [bs' tr'].
  simpl in *. split; [exact Htr |]. split; [exact Hflag | lia].
Qed.

(** C8.  The ticker of [HealthCheck] has a period of 20 seconds.  A tick
    runs one [healthCheckItr]: every backend of the pool is probed exactly
    once, one after the other in pool order, with a timeout of 2 seconds.
    The probe of the backend in slot [j] is a connection attempt to that
    backend's target, made after the probes of the slots before it, and
    what the network answers to it is the flag the backend holds
    afterwards: [Alive = true] if the attempt succeeded and [false] if it
    failed, whatever the flag was and whatever the other probes did;
    targets and cursor are untouched.  The loop never leaves: after any
    number of ticks, with any probe outcomes, it is still running, and the
    next tick is again a full round. *)
Theorem health_check_rounds (E : Env) (s : ServerPool) (tr : Trace) :
  health_check_period = 20 * Second ∧ probe_timeout = 2 * Second
  ∧ (∃ s' tr', healthCheckItr E s tr = (s', tr')
       ∧ current s' = current s
       ∧ target <$> backends s' = target <$> backends s
       ∧ probe_events tr'
         = probe_events tr
           ++ ((λ b, (target b, 2 * Second, Alive b)) <$> backends s')
       ∧ ∀ j b, backends s !! j = Some b →
           ∃ pre rest,
             let ok := dial_timeout_ok E (tr ++ pre) (target b) (2 * Second) in
             tr' = (tr ++ pre) ++ EvDialTimeout (target b) (2 * Second) ok :: rest
             ∧ backends s' !! j = Some {| target := target b; Alive := ok |}
             ∧ length (probe_events pre) = j)
  ∧ HealthCheck E 0 s tr = (Continue, (s, tr ++ [EvNewTicker (20 * Second)]))
  ∧ (∀ n, ∃ sn trn,
       HealthCheck E n s tr = (Continue, (sn, trn))
       ∧ target <$> backends sn = target <$> backends s
       ∧ HealthCheck E (S n) s tr =
           let '(s', tr') :=
             healthCheckItr E sn
               (trn ++ [EvTick; EvLog "Starting health check..."]) in
           (Continue, (s', tr' ++ [EvLog "Health check completed"]))).
Proof.
  split; [done |]. split; [done |]. split.
  { destruct (healthCheckItr_spec E s tr) as (s' & tr' & Hitr & Hcur & Htg & Hp).
    exists s', tr'. repeat (split; [done |]).
    intros j b Hb.
    destruct (healthCheckItr_probe E s tr j b Hb) as (pre & rest & Hprobe).
    rewrite Hitr in Hprobe. by exists pre, rest. }
  split; [done |].
  unfold HealthCheck.
  generalize (tr ++ [EvNewTicker health_check_period]). clear tr.
  intros tr n. revert s tr. induction n as [|n IH]; intros s tr.
  - exists s, tr. split; [done |]. split; [done |].
    cbn [loop_n]. unfold HealthCheck_body.
    rewrite <- app_assoc. simpl.
    by destruct (healthCheckItr E s _).
  - cbn [loop_n]. unfold HealthCheck_body at 1 3.
    destruct (healthCheckItr_spec E s ((tr ++ [EvTick]) ++ [EvLog "Starting health check..."]))
      as (s1 & tr1 & Hitr & _ & Htg & _).
    rewrite Hitr.
    destruct (IH s1 (tr1 ++ [EvLog "Health check completed"]))
      as (sn & trn & Hn & Htn & HSn).
    exists sn, trn. split; [exact Hn |]. split; [by rewrite Htn |].
    cbn [loop_n] in HSn. exact HSn.
Qed.

(** ** The pool invariant *)



(** ** The shutdown signal *)

Lemma SafeClose_done (sc : SigChannel) (tr : Trace) :
  once_done sc = true → SafeClose sc tr = (Ok sc, tr).
Proof. intros H. unfold SafeClose. by rewrite H. Qed.

Lemma SafeClose_times_done (n : nat) (sc : SigChannel) (tr : Trace) :
  once_done sc = true → SafeClose_times n sc tr = (Ok sc, tr).
Proof.
  intros H. induction n as [|n IH]; simpl; [done |].
  by rewrite SafeClose_done.
Qed.

(** A second plain [close] of the channel would panic: this is what the
    [sync.Once] of [SigChannel] is there to prevent. *)
Lemma close_chan_twice_panics (tr : Trace) :
  ∃ sc tr', close_chan NewSigChannel tr = (Ok sc, tr')
            ∧ close_chan sc tr' = (Panic "close of closed channel", tr').
Proof. by eexists _, _. Qed.

(** C6.  However many times [SafeClose] is called on a new shutdown signal
    (once or more), no call panics, the channel ends closed, and it was
    closed exactly once: one close event is added to the trace, by the
    first call; every later call changes nothing. *)
Theorem SafeClose_exactly_once (n : nat) (tr : Trace) :
  SafeClose_times (S n) NewSigChannel tr
  = (Ok {| C_closed := true; once_done := true |}, tr ++ [EvCloseChan])
  ∧ SafeClose NewSigChannel tr
    = (Ok {| C_closed := true; once_done := true |}, tr ++ [EvCloseChan])
  ∧ ∀ tr', SafeClose {| C_closed := true; once_done := true |} tr'
           = (Ok {| C_closed := true; once_done := true |}, tr').
Proof.
  split; [| split; [done | done]].
  cbn [SafeClose_times]. unfold SafeClose, close_chan. simpl.
  by apply SafeClose_times_done.
Qed.

(** ** Stop *)

(** The loop over the listeners closes the ones in front, as long as each
    [Close] succeeds, and stops at the first one that fails (or is nil). *)
Lemma closeListeners_spec (E : Env) (order : list (option nat)) (tr : Trace) :
  ∃ closed rest r tr',
    closeListeners E order tr = (r, tr')
    ∧ order = (Some <$> closed) ++ rest
    ∧ match rest with
      | [] => r = Ok () ∧ tr' = tr ++ (closed_ok <$> closed)
      | Some l :: _ =>
        r = Exit 1 ∧ tr' = tr ++ (closed_ok <$> closed) ++ fatal_close l
      | None :: _ => r = Panic nil_deref ∧ tr' = tr ++ (closed_ok <$> closed)
      end.
Proof.
  revert tr. induction order as [|[ln|] order IH]; intros tr.
  - exists [], [], (Ok ()), tr. simpl. by rewrite app_nil_r.
  - cbn [closeListeners].
    destruct (close_listener_ok E tr ln) eqn:Hok.
    + destruct (IH (tr ++ [EvCloseListener ln true]))
        as (closed & rest & r & tr' & Hrun & Horder & Hrest).
      exists (ln :: closed), rest, r, tr'.
      split; [exact Hrun |]. split; [by rewrite Horder |].
      destruct rest as [|[l|] rest]; destruct Hrest as [-> ->];
        (split; [done |]); rewrite <- app_assoc; done.
    + exists [], (Some ln :: order), (Exit 1), (tr ++ fatal_close ln).
      split; [| done]. unfold fatal_close.
      rewrite <- app_assoc. done.
  - exists [], (None :: order), (Panic nil_deref), tr. simpl.
    by rewrite app_nil_r.
Qed.

(** C3, amended.  [Stop] closes the shutdown signal, then closes the
    listeners one at a time.  When every [Close] succeeds, all listeners
    are closed and [Stop] returns.  At the first [Close] that returns an
    error, the error is logged by [log.Fatal], the process exits with
    status 1, [Stop] does not return and the listeners after that one are
    not closed; a nil listener in the map makes the loop panic. *)
Theorem Stop_until_first_close_error
    (E : Env) (order : list (option nat)) (s : Server) (tr : Trace) :
  C_closed (Quit s) = once_done (Quit s) →
  ∃ closed rest r tr',
    Stop E order s tr = (r, tr')
    ∧ order = (Some <$> closed) ++ rest
    ∧ let tr1 := (if once_done (Quit s) then tr else tr ++ [EvCloseChan])
                 ++ (closed_ok <$> closed) in
      match rest with
      | [] =>
        tr' = tr1 ++ [EvPrintln "Stoped gracefully"]
        ∧ ∃ s', r = Ok s' ∧ C_closed (Quit s') = true
                ∧ listener s' = listener s
      | Some l :: _ => r = Exit 1 ∧ tr' = tr1 ++ fatal_close l
      | None :: _ => r = Panic nil_deref ∧ tr' = tr1
      end.
Proof.
  intros Hsig. unfold Stop, SafeClose, close_chan.
  destruct (Quit s) as [closed_flag done_flag] eqn:Hq. simpl in Hsig. subst done_flag.
  simpl.
  set (tr0 := if closed_flag then tr else tr ++ [EvCloseChan]).
  assert (Hgoal : ∃ closed rest r tr',
    (let (r0, tr1) := closeListeners E order tr0 in
     match r0 with
     | Ok _ =>
       (Ok {| Quit := {| C_closed := true; once_done := true |};
              listener := listener s; listenerGroup := listenerGroup s;
              serverPool := serverPool s |},
        tr1 ++ [EvPrintln "Stoped gracefully"])
     | Panic m => (Panic m, tr1)
     | Exit c => (Exit c, tr1)
     | NoReturn => (NoReturn, tr1)
     end) = (r, tr')
    ∧ order = (Some <$> closed) ++ rest
    ∧ match rest with
      | [] =>
        tr' = (tr0 ++ (closed_ok <$> closed)) ++ [EvPrintln "Stoped gracefully"]
        ∧ ∃ s', r = Ok s' ∧ C_closed (Quit s') = true
                ∧ listener s' = listener s
      | Some l :: _ => r = Exit 1 ∧ tr' = (tr0 ++ (closed_ok <$> closed)) ++ fatal_close l
      | None :: _ => r = Panic nil_deref ∧ tr' = tr0 ++ (closed_ok <$> closed)
      end).
  { destruct (closeListeners_spec E order tr0)
      as (closed & rest & r & tr' & Hrun & Horder & Hrest).
    rewrite Hrun.
    destruct rest as [|[l|] rest]; destruct Hrest as [-> ->].
    - eexists closed, [], _, _. split; [done |]. split; [done |].
      split; [done |]. by eexists.
    - eexists closed, (Some l :: rest), _, _. split; [done |]. split; [done |].
      split; [done | by rewrite app_assoc].
    - by eexists closed, (None :: rest), _, _. }
  subst tr0. destruct closed_flag; exact Hgoal.
Qed.

Lemma Stop_until_first_close_error_witness :
  ∃ s', Stop env_up [Some 1; Some 2]%nat server_two_listeners []
        = (Ok s', [EvCloseChan; EvCloseListener 1 true; EvCloseListener 2 true;
                   EvPrintln "Stoped gracefully"])
        ∧ C_closed (Quit s') = true.
Proof.
  destruct (Stop_until_first_close_error env_up [Some 1; Some 2]%nat
              server_two_listeners [] eq_refl)
    as (closed & rest & r & tr' & Hrun & Horder & Hrest).
  destruct closed as [|l1 [|l2 [|l3 closed]]]; simpl in Horder;
    try discriminate Horder.
  - subst rest. simpl in Hrest. destruct Hrest as [Hr _].
    rewrite Hr in Hrun. vm_compute in Hrun. discriminate Hrun.
  - injection Horder as <- <-. simpl in Hrest. destruct Hrest as [Hr _].
    rewrite Hr in Hrun. vm_compute in Hrun. discriminate Hrun.
  - injection Horder as <- <- <-. simpl in Hrest.
    destruct Hrest as [-> (s' & -> & Hc & _)].
    exists s'. split; [exact Hrun | exact Hc].
Defined.

(** C3 as stated fails: when closing listener 1 returns an error, [Stop]
    ends the process with status 1 instead of returning, in whichever order
    the map is visited; if the loop meets listener 1 first, listener 2 is
    never closed. *)
Lemma Stop_aborts_on_close_error :
  range_order server_two_listeners [Some 1; Some 2]%nat
  ∧ range_order server_two_listeners [Some 2; Some 1]%nat
  ∧ Stop env_close_fails [Some 1; Some 2]%nat server_two_listeners []
    = (Exit 1, [EvCloseChan; EvCloseListener 1 false;
                EvLog "Error occurred while closing listener"])
  ∧ Stop env_close_fails [Some 2; Some 1]%nat server_two_listeners []
    = (Exit 1, [EvCloseChan; EvCloseListener 2 true; EvCloseListener 1 false;
                EvLog "Error occurred while closing listener"]).
Proof.
  assert (Hkeys : (map_to_list (listener server_two_listeners)).*1
                  = [Some 1; Some 2]%nat) by (vm_compute; reflexivity).
  unfold range_order. rewrite Hkeys.
  split; [done |]. split; [apply perm_swap |]. split; reflexivity.
Qed.

(** ** NewServer *)

(** Closes a goal of membership in an explicit list of events. *)
Ltac no_other_event Hin :=
  repeat (apply elem_of_cons in Hin as [Hin | Hin]; [by simplify_eq |]);
  by apply elem_of_nil in Hin.

(** One of the four ways a port can go: the events [new] it adds, with
    the one [ListenTCP] call among them. *)
Ltac listen_case laddr l new :=
  exists laddr, l, new; rewrite <- ?app_assoc; simpl;
  split; [done |]; split; [set_solver |]; split; [done |];
  let Hin := fresh "Hin" in intros ?? Hin; no_other_event Hin.

(** One port: whatever [ListenTCP] returned, nil included, becomes a key
    of the listener map; there is exactly one [ListenTCP] call. *)
Lemma listenOnPort_records (E : Env) (name : string)
    (ls : gmap (option nat) string) (tr : Trace) (port : Z) :
  ∃ laddr l new,
    listenOnPort E name (ls, tr) port = (<[l := name]> ls, tr ++ new)
    ∧ EvListenTCP laddr l ∈ new
    ∧ length (listen_events new) = 1%nat
    ∧ ∀ laddr' l', EvListenTCP laddr' l' ∈ new → l' = l.
Proof.
  unfold listenOnPort.
  set (a := "127.0.0.1:" +:+ Itoa port).
  destruct (resolve_tcp_addr E tr a) as [addr|] eqn:Hr.
  - destruct (listen_tcp E _ (Some addr)) as [l|] eqn:Hl.
    + listen_case (Some addr) (Some l)
        [EvResolveTCPAddr a (Some addr); EvListenTCP (Some addr) (Some l)].
    + listen_case (Some addr) (@None nat)
        [EvResolveTCPAddr a (Some addr); EvListenTCP (Some addr) None;
         EvLog "Unable to listen"].
  - destruct (listen_tcp E _ None) as [l|] eqn:Hl.
    + listen_case (@None TCPAddr) (Some l)
        [EvResolveTCPAddr a None; EvLog "Unable to resolve IP for port";
         EvListenTCP None (Some l)].
    + listen_case (@None TCPAddr) (@None nat)
        [EvResolveTCPAddr a None; EvLog "Unable to resolve IP for port";
         EvListenTCP None None; EvLog "Unable to listen"].
Qed.

(** [Serve] starts an accept loop for every key it visits, the nil
    listener included. *)
Lemma Serve_starts_each (order : list (option nat)) (s : Server) (tr : Trace) :
  (Serve order s tr).2
  = tr ++ ((λ ln, EvGoAccept ln (default "" (listener s !! ln))) <$> order)
       ++ [EvLog "Started Listening For New Connections"].
Proof.
  unfold Serve.
  assert (H : ∀ g tr0,
    (foldl (serveListener s) (g, tr0) order).2
    = tr0 ++ ((λ ln, EvGoAccept ln (default "" (listener s !! ln))) <$> order)).
  { induction order as [|ln order IH]; intros g tr0; simpl.
    - by rewrite app_nil_r.
    - rewrite IH. by rewrite <- app_assoc. }
  specialize (H (Ok (listenerGroup s)) tr).
  destruct (foldl (serveListener s) (Ok (listenerGroup s), tr) order) as [g tr1].
  simpl in *. subst tr1. by rewrite <- app_assoc.
Qed.

(** A successful [AcceptTCP] leaves the counter one higher, for the
    handler it starts: the state [accepted] starts from. *)
Lemma accepted_from_accept (E : Env) (q : bool) (l : nat) (app : string)
    (n : nat) (tr : Trace) (conn : nat) :
  accept_tcp E tr l = Some conn →
  acceptConnections_round E q (Some l) app (Z.of_nat n, tr)
  = Ok (Continue, (group (accepted n),
                   tr ++ [EvAcceptTCP l (Some conn); EvGoHandle conn app])).
Proof.
  intros Hacc. unfold acceptConnections_round, wg_Add. rewrite Hacc. simpl.
  destruct (Z.ltb_spec (Z.of_nat n + 1) 0); [lia |].
  by rewrite <- app_assoc.
Qed.

(** C4, on the failing inputs.  When [ListenTCP] fails for port 5001,
    [NewServer] logs the error and still executes [s.listener[l] =
    app.Name] with [l = nil]: the listener map holds a binding for the nil
    listener, [Serve] starts an accept loop on it, and that loop panics on
    its first [AcceptTCP].  When the address does not resolve (port 70000),
    [ListenTCP] is still called, with a nil address, and the listener it
    returns is bound to the application.  In neither case is the port
    skipped. *)
Theorem NewServer_records_failed_port :
  listener (NewServer env_port_in_use [app_on 5001] []).1 !! None = Some "app1"
  ∧ (NewServer env_port_in_use [app_on 5001] []).2
    = [EvResolveTCPAddr "127.0.0.1:5001" (Some loopback);
       EvListenTCP (Some loopback) None;
       EvLog "Unable to listen";
       EvGo "sp.HealthCheck()"; EvGo "s.Serve()"]
  ∧ range_order (NewServer env_port_in_use [app_on 5001] []).1 [None]
  ∧ (Serve [None] (NewServer env_port_in_use [app_on 5001] []).1 []).2
    = [EvGoAccept None "app1"; EvLog "Started Listening For New Connections"]
  ∧ (∀ E q st, acceptConnections_round E q None "app1" st = Panic nil_deref)
  ∧ listener (NewServer env_unresolved [app_on 70000] []).1 !! Some 2%nat
    = Some "app1"
  ∧ (NewServer env_unresolved [app_on 70000] []).2
    = [EvResolveTCPAddr "127.0.0.1:70000" None;
       EvLog "Unable to resolve IP for port";
       EvListenTCP None (Some 2%nat);
       EvGo "sp.HealthCheck()"; EvGo "s.Serve()"].
Proof.
  split; [vm_compute; reflexivity |]. split; [vm_compute; reflexivity |].
  split.
  { unfold range_order.
    assert (Hkeys : (map_to_list (listener
              (NewServer env_port_in_use [app_on 5001] []).1)).*1 = [None])
      by (vm_compute; reflexivity).
    by rewrite Hkeys. }
  split; [vm_compute; reflexivity |].
  split; [by intros E q [g tr] |].
  split; vm_compute; reflexivity.
Qed.

Lemma listen_failed_app (tr1 tr2 : Trace) :
  listen_failed (tr1 ++ tr2) ↔ listen_failed tr1 ∨ listen_failed tr2.
Proof.
  unfold listen_failed. split.
  - intros [a Ha]. apply elem_of_app in Ha as [Ha | Ha]; eauto.
  - intros [[a Ha] | [a Ha]]; exists a; apply elem_of_app; eauto.
Qed.

Lemma listenOnPort_one_attempt (E : Env) (name : string)
    (ls : gmap (option nat) string) (tr : Trace) (port : Z) :
  ∃ ls' new,
    listenOnPort E name (ls, tr) port = (ls', tr ++ new)
    ∧ length (listen_events new) = 1%nat
    ∧ (listen_failed new → is_Some (ls' !! None))
    ∧ (is_Some (ls !! None) → is_Some (ls' !! None)).
Proof.
  destruct (listenOnPort_records E name ls tr port)
    as (laddr & l & new & Hrun & Hin & Hone & Honly).
  exists (<[l := name]> ls), new. split; [exact Hrun |].
  split; [exact Hone |]. split.
  - intros [a Ha]. rewrite <- (Honly _ _ Ha). rewrite lookup_insert_eq. by eexists.
  - intros Hs. rewrite lookup_insert. case_decide; [by eexists | done].
Qed.

Lemma listenPorts_spec (E : Env) (name : string) (ports : list Z)
    (ls : gmap (option nat) string) (tr : Trace) :
  ∃ ls' new,
    foldl (listenOnPort E name) (ls, tr) ports = (ls', tr ++ new)
    ∧ length (listen_events new) = length ports
    ∧ (listen_failed new → is_Some (ls' !! None))
    ∧ (is_Some (ls !! None) → is_Some (ls' !! None)).
Proof.
  revert ls tr. induction ports as [|port ports IH]; intros ls tr.
  - exists ls, []. rewrite app_nil_r. split; [done |]. split; [done |].
    split; [| done]. intros [a Ha]. by apply elem_of_nil in Ha.
  - cbn [foldl].
    destruct (listenOnPort_one_attempt E name ls tr port)
      as (ls1 & new1 & -> & Hn1 & Hf1 & Hk1).
    destruct (IH ls1 (tr ++ new1)) as (ls2 & new2 & -> & Hn2 & Hf2 & Hk2).
    exists ls2, (new1 ++ new2). rewrite app_assoc. split; [done |].
    split; [| split].
    + unfold listen_events in *. rewrite omap_app, length_app, Hn1, Hn2. done.
    + intros [H1 | H2]%listen_failed_app; [apply Hk2, Hf1, H1 | apply Hf2, H2].
    + intros Hs. apply Hk2, Hk1, Hs.
Qed.

Lemma startApps_spec (E : Env) (apps : list App) (s : Server) (tr : Trace) :
  ∃ s' new,
    foldl (startApp E) (s, tr) apps = (s', tr ++ new)
    ∧ length (listen_events new) = total_ports apps
    ∧ (∀ n, is_Some (serverPool s !! n) → is_Some (serverPool s' !! n))
    ∧ (∀ app, app ∈ apps → is_Some (serverPool s' !! Name app))
    ∧ (listen_failed new → is_Some (listener s' !! None))
    ∧ (is_Some (listener s !! None) → is_Some (listener s' !! None)).
Proof.
  revert s tr. induction apps as [|app apps IH]; intros s tr.
  - exists s, []. rewrite app_nil_r. split; [done |]. split; [done |].
    split; [done |]. split; [intros app Happ; by apply elem_of_nil in Happ |].
    split; [| done]. intros [a Ha]. by apply elem_of_nil in Ha.
  - cbn [foldl]. unfold startApp at 2.
    destruct (listenPorts_spec E (Name app) (Ports app) (listener s) tr)
      as (ls1 & new1 & -> & Hn1 & Hf1 & Hk1).
    set (s1 := {| Quit := Quit s; listener := ls1;
                  listenerGroup := listenerGroup s;
                  serverPool := <[Name app := NewServerPool (Targets app)]> (serverPool s) |}).
    destruct (IH s1 ((tr ++ new1) ++ [EvGo "sp.HealthCheck()"]))
      as (s2 & new2 & -> & Hn2 & Hpool & Hin & Hf2 & Hk2).
    exists s2, (new1 ++ [EvGo "sp.HealthCheck()"] ++ new2).
    rewrite <- !app_assoc. split; [done |].
    split; [| split; [| split; [| split]]].
    + unfold listen_events, total_ports in *.
      rewrite !omap_app, !length_app, Hn1, Hn2. simpl. done.
    + intros n Hn. apply Hpool. subst s1. simpl.
      rewrite lookup_insert. case_decide; [by eexists | done].
    + intros app' [-> | Happ']%elem_of_cons; [| by apply Hin].
      apply Hpool. subst s1. simpl. rewrite lookup_insert_eq. by eexists.
    + intros [H1 | H2]%listen_failed_app; [apply Hk2, Hf1, H1 |].
      apply listen_failed_app in H2 as [[a Ha] | H2]; [| by apply Hf2].
      apply list_elem_of_singleton in Ha. discriminate Ha.
    + intros Hs. apply Hk2, Hk1, Hs.
Qed.

(** What holds of [NewServer] whatever fails: every port of every
    application gets its [ListenTCP] call, every application gets its pool,
    and a failed [ListenTCP] leaves a binding for the nil listener. *)
Lemma NewServer_goes_on (E : Env) (apps : list App) (tr : Trace) :
  ∃ s new,
    NewServer E apps tr = (s, tr ++ new)
    ∧ length (listen_events new) = total_ports apps
    ∧ (∀ app, app ∈ apps → is_Some (serverPool s !! Name app))
    ∧ (listen_failed new → is_Some (listener s !! None)).
Proof.
  unfold NewServer.
  destruct (startApps_spec E apps
              {| Quit := NewSigChannel; listener := ∅;
                 listenerGroup := 0; serverPool := ∅ |} tr)
    as (s & new & -> & Hn & _ & Hin & Hf & _).
  eexists _, (new ++ [EvGo "s.Serve()"]). rewrite app_assoc.
  split; [done |]. simpl. split; [| split; [done |]].
  - unfold listen_events in *. rewrite omap_app, length_app, Hn. simpl. lia.
  - intros [H1 | [a Ha]]%listen_failed_app; [by apply Hf |].
    apply list_elem_of_singleton in Ha. discriminate Ha.
Qed.

(** ** Routing a connection when no backend is alive *)







(** ** The handler of an accepted connection *)

Lemma accepted_inv (n : nat) : conn_inv (accepted n).
Proof. unfold conn_inv, accepted. simpl. repeat split; [done | lia | lia]. Qed.

(** Lays a move open down to the counter arithmetic. *)
Ltac open_step :=
  unfold step, with_group, wg_Done, wg_Add, wg_Wait_returns.

(** The state after an enabled move, read off the equation. *)
Ltac after_step := intros [= <-]; simpl.

Lemma step_inv (m : Move) (c c' : ConnState) :
  conn_inv c → step m c = Next c' → conn_inv c'.
Proof.
  intros (Hh & Hw & Hg & Hs & Hhead).
  unfold conn_inv.
  destruct m; open_step.
  - destruct (handler c) eqn:Hpc; [| done | done].
    destruct (group c + 1 <? 0); [done |].
    after_step. specialize (Hhead eq_refl).
    repeat split; [done | done | lia | lia | done].
  - destruct (handler c) eqn:Hpc; [done | | done].
    destruct (Z.eqb_spec (group c) 0) as [Hz | _]; [lia | done].
  - destruct (relays_running c) as [|k] eqn:Hr; [done |].
    destruct (group c + -1 <? 0); [done |].
    after_step. repeat split; [done | done | lia | done | done].
  - destruct (handler c) eqn:Hpc; [done | done |]. by destruct Hh.
  - destruct (group c + 1 <? 0); [done |].
    after_step. repeat split; [done | done | lia | done | done].
  - destruct (others c) as [|k] eqn:Ho; [done |].
    destruct (group c + -1 <? 0); [done |].
    after_step. repeat split; [done | done | lia | done | done].
Qed.

Lemma run_inv (sched : list Move) (c c' : ConnState) :
  conn_inv c → run sched c = Next c' → conn_inv c'.
Proof.
  revert c. induction sched as [|m sched IH]; intros c Hinv; simpl.
  - by intros [= <-].
  - destruct (step m c) as [| c1 |] eqn:Hstep; [done | | done].
    apply IH. by eapply step_inv.
Qed.

(** No move makes a [WaitGroup] operation panic. *)
Lemma step_no_crash (m : Move) (c : ConnState) (msg : string) :
  conn_inv c → step m c ≠ Crash msg.
Proof.
  intros (Hh & Hw & Hg & Hs & Hhead).
  destruct m; open_step.
  - destruct (handler c); [| done | done].
    destruct (Z.ltb_spec (group c + 1) 0); [lia | done].
  - destruct (handler c); [done | | done].
    by destruct (group c =? 0).
  - destruct (relays_running c) as [|k] eqn:Hr; [done |].
    destruct (Z.ltb_spec (group c + -1) 0); [lia | done].
  - destruct (handler c); [done | done |]. by destruct Hh.
  - destruct (Z.ltb_spec (group c + 1) 0); [lia | done].
  - destruct (others c) as [|k] eqn:Ho; [done |].
    destruct (Z.ltb_spec (group c + -1) 0); [lia | done].
Qed.

Lemma run_no_crash (sched : list Move) (c : ConnState) (msg : string) :
  conn_inv c → run sched c ≠ Crash msg.
Proof.
  revert c. induction sched as [|m sched IH]; intros c Hinv; simpl; [done |].
  destruct (step m c) as [| c1 |] eqn:Hstep; [done | | ].
  - apply IH. by eapply step_inv.
  - intros [= <-]. by apply (step_no_crash m c msg0).
Qed.

(** A handler that waits has started its relay: it left the loop head
    only by starting one. *)
Lemma step_waiting (m : Move) (c c' : ConnState) :
  conn_inv c → step m c = Next c' →
  (handler c = AtWait → relays_spawned c = 1%nat) →
  handler c' = AtWait → relays_spawned c' = 1%nat.
Proof.
  intros (_ & _ & Hg & _ & Hhead). destruct m; open_step.
  - destruct (handler c) eqn:Hpc; [| done | done].
    destruct (group c + 1 <? 0); [done |].
    after_step. intros _ _. by rewrite (Hhead eq_refl).
  - destruct (handler c) eqn:Hpc; [done | | done].
    destruct (group c =? 0); [| done]. by after_step.
  - destruct (relays_running c); [done |].
    destruct (group c + -1 <? 0); [done |]. by after_step.
  - destruct (handler c), (wrapper_done c); try done.
    destruct (group c + -1 <? 0); [done |]. by after_step.
  - destruct (group c + 1 <? 0); [done |]. by after_step.
  - destruct (others c); [done |].
    destruct (group c + -1 <? 0); [done |]. by after_step.
Qed.

Lemma run_waiting (sched : list Move) (c c' : ConnState) :
  conn_inv c → run sched c = Next c' →
  (handler c = AtWait → relays_spawned c = 1%nat) →
  handler c' = AtWait → relays_spawned c' = 1%nat.
Proof.
  revert c. induction sched as [|m sched IH]; intros c Hinv; simpl.
  - by intros [= <-].
  - destruct (step m c) as [| c1 |] eqn:Hstep; [done | | done].
    intros Hrun Hc. apply (IH c1); [by eapply step_inv | done |].
    by eapply step_waiting.
Qed.

(** C9, amended.  [handleConnection] never returns: its loop has no exit.
    For a connection accepted by [acceptConnections] it does not start a
    second relay either: the [Wait] after the first one is on the server's
    shared [WaitGroup], whose counter still holds the registration that
    [acceptConnections] made for this very handler, so the counter stays at
    one or more, [Wait] never returns, and exactly one [proxyConnection] is
    started per accepted connection. *)
Theorem handleConnection_blocks_after_first_relay
    (n : nat) (sched : list Move) (c : ConnState) :
  run sched (accepted n) = Next c →
  handler c ≠ Returned
  ∧ (relays_spawned c ≤ 1)%nat
  ∧ 1 ≤ group c
  ∧ step WaitReturns c = Blocked
  ∧ (handler c = AtWait → relays_spawned c = 1%nat ∧ step SpawnRelay c = Blocked).
Proof.
  intros Hrun.
  pose proof (run_inv sched _ _ (accepted_inv n) Hrun)
    as (Hh & Hw & Hg & Hs & Hhead).
  split; [done |]. split; [done |]. split; [lia |]. split.
  - unfold step, wg_Wait_returns.
    destruct (handler c); [done | | done].
    destruct (Z.eqb_spec (group c) 0); [lia | done].
  - intros Hpc. split; [| unfold step; by rewrite Hpc].
    by apply (run_waiting sched (accepted n) c (accepted_inv n) Hrun).
Qed.

Lemma handleConnection_blocks_after_first_relay_witness :
  ∃ c, run [SpawnRelay; RelayDone] (accepted 1) = Next c
       ∧ handler c ≠ Returned
       ∧ (relays_spawned c ≤ 1)%nat
       ∧ step WaitReturns c = Blocked.
Proof.
  eexists. split; [reflexivity |].
  destruct (handleConnection_blocks_after_first_relay 1 [SpawnRelay; RelayDone] _ eq_refl)
    as (Hh & Hs & _ & Hw & _).
  split; [exact Hh |]. split; [exact Hs | exact Hw].
Defined.

(** C9 as stated fails for an accepted connection: once its relay has
    finished, the handler is blocked in [Wait] with the counter at 2 (its
    own registration and the accept loop's), and no schedule ever starts a
    second relay. *)
Lemma handleConnection_never_respawns :
  run [SpawnRelay; RelayDone] (accepted 1)
  = Next {| group := 2; handler := AtWait; wrapper_done := false;
            relays_running := 0; relays_spawned := 1; others := 1 |}
  ∧ ¬ ∃ sched c, run sched (accepted 1) = Next c ∧ (2 ≤ relays_spawned c)%nat.
Proof.
  split; [reflexivity |].
  intros (sched & c & Hrun & Htwo).
  pose proof (run_inv sched _ _ (accepted_inv 1) Hrun) as (_ & _ & _ & Hs & _).
  lia.
Qed.

(** For comparison: entered with the counter at zero, the same loop does
    start relay after relay, each as soon as the previous one is done. *)
Lemma handleConnection_respawns_when_unregistered :
  run [SpawnRelay; RelayDone; WaitReturns; SpawnRelay; RelayDone; WaitReturns;
       SpawnRelay] unregistered
  = Next {| group := 1; handler := AtWait; wrapper_done := false;
            relays_running := 1; relays_spawned := 3; others := 0 |}.
Proof. reflexivity. Qed.


(** * Further properties of the code *)

(** ** Round robin over the live backends *)

Lemma find_head_filter {A} (f : A → bool) (l : list A) :
  find f l = head (List.filter f l).
Proof. induction l as [|a l IH]; simpl; [done |]. by destruct (f a). Qed.

Lemma filter_seq_app (f : nat → bool) (a n1 n2 : nat) :
  List.filter f (seq a (n1 + n2))
  = List.filter f (seq a n1) ++ List.filter f (seq (a + n1) n2).
Proof. by rewrite seq_app, List.filter_app. Qed.

(** The first hit of a filter over an interval: where it is, and what is
    left after it. *)
Lemma filter_seq_cons (f : nat → bool) (a n x : nat) (ys : list nat) :
  List.filter f (seq a n) = x :: ys →
  (a ≤ x < a + n)%nat ∧ f x = true
  ∧ List.filter f (seq a (x - a)) = []
  ∧ ys = List.filter f (seq (S x) (a + n - S x)).
Proof.
  revert a. induction n as [|n IH]; intros a; simpl; [done |].
  destruct (f a) eqn:Hfa.
  - intros [= <- <-]. split; [lia |]. split; [done |].
    rewrite Nat.sub_diag. split; [done |]. do 2 f_equal. lia.
  - intros Hrest. destruct (IH (S a) Hrest) as (Hx & Hfx & Hnil & Hys).
    split; [lia |]. split; [done |]. split.
    + replace (x - a)%nat with (S (x - S a)) by lia. simpl.
      by rewrite Hfa.
    + rewrite Hys. do 2 f_equal. lia.
Qed.

(** One selection moves the scan order on by one place: the slot handed
    out goes to the back. *)
Lemma live_rotation_step (f : nat → bool) (N r x : nat) (xs : list nat) :
  (r < N)%nat →
  List.filter f (seq r (N - r)) ++ List.filter f (seq 0 r) = x :: xs →
  (x < N)%nat
  ∧ List.filter f (seq (S x `mod` N) (N - S x `mod` N))
    ++ List.filter f (seq 0 (S x `mod` N))
    = xs ++ [x].
Proof.
  intros Hr Hrot.
  assert (Hone : ∀ y, f y = true → List.filter f (seq y 1) = [y])
    by (intros y Hy; simpl; by rewrite Hy).
  destruct (List.filter f (seq r (N - r))) as [|y ys] eqn:Hhigh; simpl in Hrot.
  - (* nothing alive from r on: the hit is before r *)
    destruct (filter_seq_cons f 0 r x xs Hrot) as (Hx & Hfx & Hbefore & Hxs).
    split; [lia |].
    rewrite Nat.mod_small by lia.
    replace (N - S x)%nat with ((r - S x) + (N - r))%nat by lia.
    rewrite filter_seq_app.
    replace (S x + (r - S x))%nat with r by lia.
    rewrite Hhigh, app_nil_r.
    replace (S x) with (x + 1)%nat at 3 by lia.
    rewrite filter_seq_app. rewrite Nat.sub_0_r in Hbefore.
    rewrite Nat.add_0_l, Hbefore, (Hone x Hfx). simpl.
    by rewrite Hxs.
  - injection Hrot as Hy Hxs. subst y xs.
    destruct (filter_seq_cons f r (N - r) x ys Hhigh) as (Hx & Hfx & Hbefore & Hys).
    split; [lia |].
    assert (Hlow : List.filter f (seq 0 (S x))
                   = List.filter f (seq 0 r) ++ [x]).
    { replace (S x) with (r + ((x - r) + 1))%nat by lia.
      rewrite filter_seq_app. f_equal. simpl.
      rewrite filter_seq_app, Hbefore. simpl.
      replace (r + (x - r))%nat with x by lia. by apply Hone. }
    destruct (decide (S x = N)) as [Hlast | Hmore].
    + rewrite Hlast, Nat.Div0.mod_same. simpl. rewrite Nat.sub_0_r, app_nil_r.
      rewrite <- Hlast, Hlow.
      rewrite Hys. replace (r + (N - r) - S x)%nat with 0%nat by lia. done.
    + rewrite Nat.mod_small by lia.
      rewrite Hlow, app_assoc. f_equal. f_equal.
      rewrite Hys. do 2 f_equal. lia.
Qed.

(** The slots of a full scan from slot [r], as two intervals. *)
Lemma cycle_from_intervals (N r : nat) :
  (r < N)%nat →
  cycle_from (Z.of_nat N) (Z.of_nat r) N = seq r (N - r) ++ seq 0 r.
Proof.
  intros Hr. apply list_eq. intros j.
  destruct (decide (j < N)%nat) as [Hj | Hj].
  - rewrite cycle_from_lookup by done.
    destruct (decide (j < N - r)%nat) as [Hlow | Hhigh].
    + rewrite lookup_app_l by (rewrite length_seq; lia).
      rewrite lookup_seq_lt by lia. f_equal.
      rewrite Z.mod_small by lia. lia.
    + rewrite lookup_app_r by (rewrite length_seq; lia).
      rewrite length_seq, lookup_seq_lt by lia. f_equal.
      replace (Z.of_nat r + Z.of_nat j)
        with (Z.of_nat (j - (N - r)) + 1 * Z.of_nat N) by lia.
      rewrite Z.mod_add by lia. rewrite Z.mod_small by lia. lia.
  - rewrite !lookup_ge_None_2; [done | |].
    + rewrite length_app, !length_seq. lia.
    + rewrite cycle_from_length. lia.
Qed.

Lemma live_order_same_backends (s1 s2 : ServerPool) (r : nat) :
  backends s1 = backends s2 → live_order s1 r = live_order s2 r.
Proof. intros Hbs. unfold live_order, alive_at. by rewrite Hbs. Qed.

(** One selection, by the scan order: the first live slot is returned, and
    the cursor is left on it (modulo the pool size). *)
Lemma GetNextPeer_live (s : ServerPool) :
  backends s ≠ [] → 0 ≤ current s → current s + 1 < uint64_modulus →
  let r := Z.to_nat ((current s + 1) `mod` len s) in
  ∃ s', GetNextPeer s = Ok (head (live_order s r), s')
        ∧ backends s' = backends s
        ∧ (r < length (backends s))%nat
        ∧ ∀ x, head (live_order s r) = Some x →
            (current s' = current s + 1 ∨ current s' = Z.of_nat x)
            ∧ current s' `mod` len s = Z.of_nat x.
Proof.
  intros Hne Hc0 Hc1 r. pose proof (len_pos s Hne) as HN.
  assert (Hv : AddUint64 (current s) 1 = current s + 1)
    by (unfold AddUint64; apply Z.mod_small; lia).
  assert (Hb : 0 ≤ (current s + 1) `mod` len s < len s)
    by (apply Z.mod_pos_bound; lia).
  assert (Hr : (r < length (backends s))%nat) by (subst r; unfold len in *; lia).
  rewrite GetNextPeer_spec by done. rewrite Hv. fold r.
  assert (Hcyc : cycle_from (len s) ((current s + 1) `mod` len s)
                   (length (backends s))
                 = seq r (length (backends s) - r) ++ seq 0 r).
  { rewrite <- (cycle_from_intervals _ r Hr). unfold len.
    f_equal. subst r. unfold len in *. rewrite Z2Nat.id; lia. }
  rewrite Hcyc, find_head_filter, List.filter_app. fold (live_order s r).
  destruct (alive_at s r) eqn:Ha.
  - eexists. split; [reflexivity |]. split; [done |]. split; [done |].
    intros x Hx. simpl.
    assert (Hhead : head (live_order s r) = Some r).
    { unfold live_order.
      replace (length (backends s) - r)%nat
        with (S (length (backends s) - S r)) by lia.
      simpl. by rewrite Ha. }
    rewrite Hhead in Hx. injection Hx as <-.
    split; [by left |]. subst r. lia.
  - destruct (head (live_order s r)) as [p|] eqn:Hhead.
    + eexists. split; [reflexivity |]. split; [done |]. split; [done |].
      intros x [= <-]. simpl. split; [by right |].
      apply Z.mod_small.
      assert (Hp : p ∈ live_order s r)
        by (destruct (live_order s r); [done | injection Hhead as ->; left]).
      unfold live_order in Hp. rewrite <- List.filter_app in Hp.
      apply list_elem_of_In, List.filter_In in Hp as [Hp _].
      apply list_elem_of_In, elem_of_app in Hp.
      unfold len. destruct Hp as [Hp | Hp]; apply elem_of_seq in Hp; lia.
    + eexists. split; [reflexivity |]. split; [done |]. split; [done |]. done.
Qed.

(** [k] selections hand out the first [k] live slots of the scan order. *)
Lemma select_many_live (k : nat) (s : ServerPool) :
  backends s ≠ [] → 0 ≤ current s →
  current s + Z.of_nat k + 1 < uint64_modulus →
  len s + Z.of_nat k + 1 < uint64_modulus →
  let r := Z.to_nat ((current s + 1) `mod` len s) in
  (k ≤ length (live_order s r))%nat →
  ∃ s', select_many k s = Ok (Some <$> take k (live_order s r), s')
        ∧ backends s' = backends s.
Proof.
  revert s. induction k as [|k IH]; intros s Hne Hc0 Hc1 Hn1 r Hk.
  - exists s. by rewrite take_0.
  - pose proof (len_pos s Hne) as HN.
    destruct (GetNextPeer_live s Hne Hc0) as (s1 & Hcall & Hbs & Hr & Hcur);
      [lia |]. fold r in Hcall, Hr, Hcur.
    destruct (live_order s r) as [|x xs] eqn:Hlive; [simpl in Hk; lia |].
    simpl in Hcall. destruct (Hcur x eq_refl) as [Hcases Hmod].
    pose proof Hlive as Hrot. unfold live_order in Hrot.
    apply live_rotation_step in Hrot as [Hx Hrot]; [| done].
    assert (Hlen1 : len s1 = len s) by (unfold len; by rewrite Hbs).
    assert (Hr1 : Z.to_nat ((current s1 + 1) `mod` len s1)
                  = (S x `mod` length (backends s))%nat).
    { rewrite Hlen1, <- Zplus_mod_idemp_l, Hmod. unfold len.
      rewrite <- (Nat2Z.id (S x `mod` length (backends s))).
      f_equal. rewrite Nat2Z.inj_mod. f_equal. lia. }
    destruct (IH s1) as (s2 & Hrun & Hbs2).
    + by rewrite Hbs.
    + destruct Hcases as [-> | ->]; lia.
    + destruct Hcases as [-> | ->]; [lia |]. unfold len in *. lia.
    + rewrite Hlen1. lia.
    + rewrite Hr1, (live_order_same_backends s1 s) by done.
      unfold live_order. rewrite Hrot, length_app. simpl in *. lia.
    + cbn [select_many]. rewrite Hcall. simpl. rewrite Hrun. simpl.
      exists s2. split; [| by rewrite Hbs2].
      do 2 f_equal. rewrite Hr1, (live_order_same_backends s1 s) by done.
      unfold live_order. rewrite Hrot.
      rewrite take_app_le by (simpl in Hk; lia). done.
Qed.

(** X1.  Round robin over the live backends.  Let [r] be the slot after
    the cursor, [(current + 1) mod size].  With the flags unchanged, no
    wrap of the counter, and a pool size within Go's [int], as many
    consecutive selections as there are live backends return every live
    backend exactly once, dead ones never: first the live slots from [r]
    to the end of the pool, then the live slots before [r], each group in
    pool order. *)
Theorem round_robin_over_live_backends (s : ServerPool) :
  backends s ≠ [] → 0 ≤ current s →
  current s + Z.of_nat (length (live_slots s)) + 1 < uint64_modulus →
  len s < 2 ^ 63 →
  let r := Z.to_nat ((current s + 1) `mod` len s) in
  ∃ s',
    select_many (length (live_slots s)) s
    = Ok (Some <$> (List.filter (alive_at s) (seq r (length (backends s) - r))
                    ++ List.filter (alive_at s) (seq 0 r)), s')
    ∧ List.filter (alive_at s) (seq r (length (backends s) - r))
      ++ List.filter (alive_at s) (seq 0 r) ≡ₚ live_slots s
    ∧ (r < length (backends s))%nat
    ∧ backends s' = backends s.
Proof.
  intros Hne Hc0 Hc1 Hint r. pose proof (len_pos s Hne) as HN.
  assert (Hb : 0 ≤ (current s + 1) `mod` len s < len s)
    by (apply Z.mod_pos_bound; lia).
  assert (Hr : (r < length (backends s))%nat) by (subst r; unfold len in *; lia).
  set (before := List.filter (alive_at s) (seq 0 r)).
  set (after := List.filter (alive_at s) (seq r (length (backends s) - r))).
  assert (Hsplit : live_slots s = before ++ after).
  { unfold live_slots.
    replace (length (backends s)) with (r + (length (backends s) - r))%nat at 1
      by lia.
    by rewrite filter_seq_app. }
  assert (Hlen : length (live_order s r) = length (live_slots s)).
  { unfold live_order. fold after before.
    rewrite Hsplit, !length_app. lia. }
  assert (Hlive : Z.of_nat (length (live_slots s)) ≤ len s).
  { unfold live_slots, len. apply inj_le.
    etransitivity; [apply List.filter_length_le |]. by rewrite length_seq. }
  assert (Hn1 : len s + Z.of_nat (length (live_slots s)) + 1 < uint64_modulus).
  { change uint64_modulus with (2 ^ 63 + 2 ^ 63). lia. }
  destruct (select_many_live (length (live_slots s)) s Hne Hc0 Hc1 Hn1)
    as (s' & Hrun & Hbs); [fold r; lia |].
  fold r in Hrun. rewrite take_ge in Hrun by lia.
  exists s'. split; [exact Hrun |].
  split; [| done]. rewrite Hsplit. apply Permutation_app_comm.
Qed.

Lemma round_robin_over_live_backends_witness :
  ∃ s', select_many 2 pool_one_dead = Ok ([Some 0; Some 1]%nat, s')
        ∧ backends s' = backends pool_one_dead.
Proof.
  destruct (round_robin_over_live_backends pool_one_dead)
    as (s' & Hrun & _ & _ & Hbs).
  - discriminate.
  - simpl. lia.
  - vm_compute. reflexivity.
  - vm_compute. reflexivity.
  - exists s'. split; [exact Hrun | exact Hbs].
Defined.

(** X2.  While exactly one backend is alive, every selection returns it,
    wherever the cursor stands and however often the counter has
    wrapped. *)
Theorem only_live_backend_always_selected (s : ServerPool) (p k : nat) :
  alive_at s p = true → (∀ q, q ≠ p → alive_at s q = false) →
  ∃ s', select_many k s = Ok (replicate k (Some p), s')
        ∧ backends s' = backends s.
Proof.
  revert s. induction k as [|k IH]; intros s Hp Hothers; [by exists s |].
  assert (Hne : backends s ≠ []).
  { intros Hs. unfold alive_at in Hp. by rewrite Hs in Hp. }
  pose proof (len_pos s Hne) as HN.
  pose proof (GetNextPeer_spec s Hne) as Hspec. cbv zeta in Hspec.
  set (r := find (alive_at s) _) in Hspec.
  assert (Hr : r = Some p).
  { destruct r as [q|] eqn:Hfind.
    - subst r. apply find_first in Hfind as (_ & _ & Hq & _).
      destruct (decide (q = p)) as [-> | Hqp]; [done |].
      rewrite (Hothers q Hqp) in Hq. discriminate.
    - subst r. apply find_cycle_none in Hfind; [| done].
      rewrite (alive_at_none s p Hfind) in Hp. discriminate. }
  rewrite Hr in Hspec.
  set (s1 := if alive_at s _ then _ else _) in Hspec.
  assert (Hbs1 : backends s1 = backends s).
  { subst s1.
    by destruct (alive_at s (Z.to_nat (AddUint64 (current s) 1 `mod` len s))). }
  destruct (IH s1) as (s2 & Hrun & Hbs2).
  - unfold alive_at in *. by rewrite Hbs1.
  - intros q Hq. specialize (Hothers q Hq). unfold alive_at in *. by rewrite Hbs1.
  - cbn [select_many]. rewrite Hspec. simpl. rewrite Hrun. simpl.
    exists s2. split; [done | by rewrite Hbs2].
Qed.

Lemma only_live_backend_always_selected_witness :
  ∃ s', select_many 5 pool_dead_then_alive = Ok (replicate 5 (Some 1%nat), s')
        ∧ backends s' = backends pool_dead_then_alive.
Proof.
  apply (only_live_backend_always_selected pool_dead_then_alive 1 5).
  - reflexivity.
  - intros [|[|q]] Hq; [reflexivity | done | reflexivity].
Defined.

(** X3.  The order of a new pool.  As long as every backend stays alive,
    the [j]-th selection (counting from 0) on a pool made from [targets]
    returns slot [(j + 1) mod N]: the first connection goes to the second
    target when there are two or more, and the first target is served
    [N]-th. *)
Theorem fresh_pool_selection_order (targets : list string) (k : nat) :
  targets ≠ [] → Z.of_nat k < uint64_modulus →
  ∃ s', select_many k (NewServerPool targets)
        = Ok ((λ j : nat, Some (S j `mod` length targets)%nat) <$> seq 0 k, s')
        ∧ GetAddress <$> backends s' = targets.
Proof.
  intros Hne Hk.
  assert (Hlen : length (backends (NewServerPool targets)) = length targets)
    by (by rewrite NewServerPool_backends, length_fmap).
  assert (Hbs : backends (NewServerPool targets) ≠ []).
  { rewrite NewServerPool_backends. by destruct targets. }
  assert (Hall : all_alive (NewServerPool targets)).
  { intros b. rewrite NewServerPool_backends.
    intros Hb. apply list_elem_of_fmap in Hb as (t & -> & _). done. }
  assert (HN : (0 < length targets)%nat) by (destruct targets; simpl; [done | lia]).
  destruct (select_many_all_alive k _ Hbs Hall) as (s' & Hrun & Hbs' & _).
  exists s'. split.
  - rewrite Hrun. do 2 f_equal.
    apply list_fmap_ext. intros i j Hj. apply lookup_seq in Hj as [-> Hi].
    simpl. f_equal. unfold len. rewrite Hlen. unfold AddUint64. simpl.
    rewrite (Z.mod_small (1 + Z.of_nat i)) by lia.
    rewrite <- (Nat2Z.id (S i `mod` length targets)). f_equal.
    rewrite Nat2Z.inj_mod. f_equal. lia.
  - rewrite Hbs', NewServerPool_backends, <- list_fmap_compose.
    clear. induction targets as [|t ts IH]; [done |].
    rewrite fmap_cons. simpl. by f_equal.
Qed.

Lemma fresh_pool_selection_order_witness :
  ∃ s', select_many 3 (NewServerPool ["127.0.0.1:9001"; "127.0.0.1:9002"])
        = Ok ([Some 1; Some 0; Some 1]%nat, s')
        ∧ GetAddress <$> backends s' = ["127.0.0.1:9001"; "127.0.0.1:9002"].
Proof.
  apply (fresh_pool_selection_order ["127.0.0.1:9001"; "127.0.0.1:9002"] 3).
  - discriminate.
  - unfold uint64_modulus. simpl. lia.
Defined.

(** X4.  Selection stays inside the pool: [NextIndex] returns an index
    below the pool size, [GetNextPeer] never indexes out of range, and the
    backend it returns is one of the pool and leaves the cursor, taken
    modulo the pool size, on its slot. *)
Theorem selection_stays_in_bounds (s : ServerPool) :
  (∀ i s', NextIndex s = Ok (i, s') → 0 ≤ i < len s)
  ∧ GetNextPeer s ≠ Panic "runtime error: index out of range"
  ∧ (∀ p s', GetNextPeer s = Ok (Some p, s') →
       (p < length (backends s))%nat ∧ alive_at s p = true
       ∧ current s' `mod` len s = Z.of_nat p).
Proof.
  split; [| split].
  - intros i s'. unfold NextIndex.
    destruct (Z.eqb_spec (len s) 0) as [| Hnz]; [done |].
    intros [= <- _]. apply Z.mod_pos_bound. unfold len in *. lia.
  - destruct (decide (backends s = [])) as [Hs | Hne].
    + unfold GetNextPeer, NextIndex, len. rewrite Hs. simpl. discriminate.
    + rewrite GetNextPeer_spec by done. discriminate.
  - intros p s' Hcall.
    assert (Hne : backends s ≠ []).
    { intros Hs. unfold GetNextPeer, NextIndex, len in Hcall.
      rewrite Hs in Hcall. simpl in Hcall. discriminate. }
    pose proof (len_pos s Hne) as HN.
    pose proof (GetNextPeer_spec s Hne) as Hspec. cbv zeta in Hspec.
    rewrite Hspec in Hcall. clear Hspec. injection Hcall as Hfind Hs'.
    pose proof Hfind as Hfirst.
    apply find_first in Hfirst as (j & Hj & Hp & _).
    pose proof (lookup_lt_Some _ _ _ Hj) as Hlt.
    rewrite cycle_from_length in Hlt.
    rewrite cycle_from_lookup in Hj by done. injection Hj as Hj.
    rewrite Z.add_mod_idemp_l in Hj by lia.
    assert (Hpn : (p < length (backends s))%nat)
      by (subst p; by apply slot_in_range).
    split; [done |]. split; [done |].
    destruct (alive_at s (Z.to_nat (AddUint64 (current s) 1 `mod` len s))) eqn:Ha.
    + subst s'. simpl.
      assert (Hhead : find (alive_at s)
                (cycle_from (len s) (AddUint64 (current s) 1 `mod` len s)
                   (length (backends s)))
              = Some (Z.to_nat (AddUint64 (current s) 1 `mod` len s))).
      { destruct (length (backends s)) as [|n]; [lia |].
        cbn [cycle_from find]. rewrite Z.mod_mod by lia. by rewrite Ha. }
      rewrite Hhead in Hfind. injection Hfind as <-.
      rewrite Z2Nat.id; [done |]. apply Z.mod_pos_bound. lia.
    + rewrite Hfind in Hs'. subst s'. simpl.
      apply Z.mod_small. unfold len. lia.
Qed.

(** ** Health-check rounds *)

(** A round started on two pools with the same targets ends in the same
    pool and the same trace, once the slots still to come are done. *)
Lemma healthCheck_fold_forgets (E : Env) (k i : nat)
    (bs1 bs2 : list Backend) (tr : Trace) :
  length bs1 = (i + k)%nat →
  target <$> bs1 = target <$> bs2 →
  take i bs1 = take i bs2 →
  foldl (healthCheckOne E) (bs1, tr) (seq i k)
  = foldl (healthCheckOne E) (bs2, tr) (seq i k).
Proof.
  revert i bs1 bs2 tr. induction k as [|k IH]; intros i bs1 bs2 tr Hlen Htg Htake.
  - simpl. f_equal.
    assert (Hlen2 : length bs2 = length bs1)
      by (by rewrite <- (length_fmap target bs2), <- Htg, length_fmap).
    rewrite <- (take_ge bs1 i), <- (take_ge bs2 i) by lia. done.
  - cbn [seq foldl].
    assert (Hlen2 : length bs2 = length bs1)
      by (by rewrite <- (length_fmap target bs2), <- Htg, length_fmap).
    destruct (lookup_lt_is_Some_2 bs1 i) as [b1 Hb1]; [lia |].
    destruct (lookup_lt_is_Some_2 bs2 i) as [b2 Hb2]; [lia |].
    assert (Htb : target b2 = target b1).
    { assert (H : (target <$> bs1) !! i = (target <$> bs2) !! i) by (by rewrite Htg).
      rewrite !list_lookup_fmap, Hb1, Hb2 in H. by injection H. }
    destruct (healthCheckOne_at E bs1 tr i b1 Hb1) as (tr' & Hone1 & Hsame).
    pose proof (healthCheckOne_at E bs2 tr i b2 Hb2) as (tr2 & Hone2 & _).
    pose proof (Hsame bs2 b2 Hb2 Htb) as Htr2.
    rewrite Hone2 in Htr2. simpl in Htr2. subst tr2.
    rewrite Hone1, Hone2, Htb.
    set (x := SetAlive b1 _).
    assert (Hx : SetAlive b2 (dial_timeout_ok E tr (target b1) probe_timeout) = x)
      by (subst x; unfold SetAlive; by rewrite Htb).
    rewrite Hx. apply IH.
    + rewrite length_insert. lia.
    + rewrite !list_fmap_insert. by rewrite Htg.
    + rewrite !take_S_insert by lia. by rewrite Htake.
Qed.

(** X5.  A health-check round forgets the old flags.  Every flag is
    overwritten by what the network answers to the probe of that backend's
    own target, asked after the probes of the slots before it.  So, run in
    the same surroundings on two pools with the same targets, a round
    leaves the same backends, with the same flags, and the same trace,
    whatever the flags were before: a backend wrongly marked dead or alive
    is set right by the next round. *)
Theorem healthCheckItr_forgets_flags (E : Env) (s1 s2 : ServerPool) (tr : Trace) :
  target <$> backends s1 = target <$> backends s2 →
  backends (healthCheckItr E s1 tr).1 = backends (healthCheckItr E s2 tr).1
  ∧ (healthCheckItr E s1 tr).2 = (healthCheckItr E s2 tr).2
  ∧ ∀ j b2, backends s2 !! j = Some b2 →
      ∃ pre rest,
        let ok := dial_timeout_ok E (tr ++ pre) (target b2) probe_timeout in
        (healthCheckItr E s1 tr).2
        = (tr ++ pre) ++ EvDialTimeout (target b2) probe_timeout ok :: rest
        ∧ Alive <$> backends (healthCheckItr E s1 tr).1 !! j = Some ok
        ∧ length (probe_events pre) = j.
Proof.
  intros Htg.
  assert (Hsame : healthCheckItr E s1 tr
                  = ({| backends := backends (healthCheckItr E s2 tr).1;
                        current := current s1 |},
                     (healthCheckItr E s2 tr).2)).
  { unfold healthCheckItr.
    assert (Hlen : length (backends s2) = length (backends s1))
      by (by rewrite <- (length_fmap target (backends s2)), <- Htg, length_fmap).
    rewrite Hlen.
    rewrite (healthCheck_fold_forgets E (length (backends s1)) 0
               (backends s1) (backends s2) tr) by done.
    by destruct (foldl (healthCheckOne E) (backends s2, tr) _). }
  rewrite Hsame. simpl. split; [done |]. split; [done |].
  intros j b2 Hb2.
  destruct (healthCheckItr_probe E s2 tr j b2 Hb2)
    as (pre & rest & Htr & Hflag & Hcount).
  exists pre, rest. cbv zeta in *.
  split; [exact Htr |]. split; [by rewrite Hflag | exact Hcount].
Qed.

Lemma healthCheckItr_forgets_flags_witness :
  backends (healthCheckItr env_up pool_all_dead []).1
  = backends (healthCheckItr env_up (store_current (NewServerPool
      ["127.0.0.1:9001"; "127.0.0.1:9002"]) 5) []).1
  ∧ (healthCheckItr env_up pool_all_dead []).2
    = (healthCheckItr env_up (store_current (NewServerPool
        ["127.0.0.1:9001"; "127.0.0.1:9002"]) 5) []).2.
Proof.
  destruct (healthCheckItr_forgets_flags env_up pool_all_dead
              (store_current (NewServerPool
                 ["127.0.0.1:9001"; "127.0.0.1:9002"]) 5) [])
    as (Hbs & Htr & _).
  - reflexivity.
  - split; [exact Hbs | exact Htr].
Defined.

Lemma healthCheck_fold_uniform (E : Env) (v : bool) (k i : nat)
    (bs : list Backend) (tr : Trace) :
  (∀ tr addr timeout, dial_timeout_ok E tr addr timeout = v) →
  length bs = (i + k)%nat →
  Alive <$> take i bs = replicate i v →
  Alive <$> (foldl (healthCheckOne E) (bs, tr) (seq i k)).1
  = replicate (i + k) v.
Proof.
  intros Hv. revert i bs tr. induction k as [|k IH]; intros i bs tr Hlen Hdone.
  - simpl. rewrite Nat.add_0_r. by rewrite <- (take_ge bs i) by lia.
  - cbn [seq foldl].
    destruct (lookup_lt_is_Some_2 bs i) as [b Hb]; [lia |].
    destruct (healthCheckOne_at E bs tr i b Hb) as (tr' & -> & _).
    rewrite Hv.
    replace (i + S k)%nat with (S i + k)%nat by lia.
    apply IH.
    + rewrite length_insert. lia.
    + rewrite take_S_insert by lia.
      by rewrite fmap_app, Hdone, replicate_S_end.
Qed.

(** X6.  When every probe of a round has the same outcome, every backend
    has that flag afterwards, whatever it was before: a round of
    successful probes makes the whole pool selectable again, a round of
    failures leaves nothing to select. *)
Theorem healthCheckItr_uniform (E : Env) (v : bool) (s : ServerPool) (tr : Trace) :
  (∀ tr addr timeout, dial_timeout_ok E tr addr timeout = v) →
  let s' := (healthCheckItr E s tr).1 in
  Alive <$> backends s' = replicate (length (backends s)) v
  ∧ (v = true → all_alive s')
  ∧ (v = false → none_alive s'
                 ∧ (backends s ≠ [] → ∃ s'', GetNextPeer s' = Ok (None, s''))).
Proof.
  intros Hv s'.
  assert (Hflags : Alive <$> backends s' = replicate (length (backends s)) v).
  { subst s'. unfold healthCheckItr.
    pose proof (healthCheck_fold_uniform E v (length (backends s)) 0
                  (backends s) tr Hv eq_refl eq_refl) as H.
    destruct (foldl (healthCheckOne E) (backends s, tr) _) as [bs' tr'].
    exact H. }
  assert (Hevery : ∀ b, b ∈ backends s' → Alive b = v).
  { intros b Hb.
    assert (Hin : Alive b ∈ Alive <$> backends s')
      by (apply list_elem_of_fmap; eauto).
    rewrite Hflags in Hin. by apply elem_of_replicate in Hin as [-> _]. }
  split; [exact Hflags |]. split.
  - intros ->. exact Hevery.
  - intros ->. split; [exact Hevery |].
    intros Hne.
    assert (Hne' : backends s' ≠ []).
    { intros Hs'. rewrite Hs' in Hflags. simpl in Hflags.
      destruct (backends s); [done | discriminate]. }
    pose proof (len_pos s' Hne') as HN.
    rewrite GetNextPeer_spec by done.
    rewrite alive_at_none by exact Hevery.
    rewrite (proj2 (find_cycle_none s' _ HN)) by exact Hevery.
    by eexists.
Qed.

Lemma healthCheckItr_uniform_witness :
  Alive <$> backends (healthCheckItr env_up pool_all_dead []).1
  = replicate 2 true
  ∧ all_alive (healthCheckItr env_up pool_all_dead []).1.
Proof.
  destruct (healthCheckItr_uniform env_up true pool_all_dead [])
    as (Hflags & Hall & _).
  - reflexivity.
  - split; [exact Hflags | by apply Hall].
Defined.

(** ** What NewServer builds *)

Lemma startApp_pool (E : Env) (s : Server) (tr : Trace) (app : App) :
  serverPool (startApp E (s, tr) app).1
  = <[Name app := NewServerPool (Targets app)]> (serverPool s)
  ∧ Quit (startApp E (s, tr) app).1 = Quit s
  ∧ listenerGroup (startApp E (s, tr) app).1 = listenerGroup s.
Proof.
  unfold startApp.
  by destruct (foldl (listenOnPort E (Name app)) (listener s, tr) (Ports app)).
Qed.

Lemma startApps_pool_of_name (E : Env) (apps : list App) (s : Server)
    (tr : Trace) (n : string) :
  serverPool (foldl (startApp E) (s, tr) apps).1 !! n
  = match last (filter (λ app, Name app = n) apps) with
    | Some app => Some (NewServerPool (Targets app))
    | None => serverPool s !! n
    end.
Proof.
  revert s tr. induction apps as [|app apps IH]; intros s tr; [done |].
  cbn [foldl].
  pose proof (startApp_pool E s tr app) as (Hpool & _ & _).
  destruct (startApp E (s, tr) app) as [s1 tr1]. simpl in Hpool.
  rewrite IH, Hpool. rewrite filter_cons.
  destruct (decide (Name app = n)) as [Hn | Hn].
  - rewrite last_cons.
    destruct (last (filter (λ app0, Name app0 = n) apps)); [done |].
    by rewrite Hn, lookup_insert_eq.
  - destruct (last (filter (λ app0, Name app0 = n) apps)); [done |].
    by rewrite lookup_insert_ne.
Qed.

(** X7.  The pool of a name.  After [NewServer], the pool stored under a
    name is the new pool of the last application configured with that
    name: when two applications share a name, the targets of the later one
    replace those of the earlier one for every port of both; a name no
    application has gets no pool. *)
Theorem NewServer_pool_of_name (E : Env) (apps : list App) (tr : Trace)
    (n : string) :
  serverPool (NewServer E apps tr).1 !! n
  = (λ app, NewServerPool (Targets app))
      <$> last (filter (λ app, Name app = n) apps).
Proof.
  unfold NewServer.
  pose proof (startApps_pool_of_name E apps
                {| Quit := NewSigChannel; listener := ∅;
                   listenerGroup := 0; serverPool := ∅ |} tr n) as H.
  destruct (foldl (startApp E) _ apps) as [s tr']. simpl in *.
  rewrite H. by destruct (last (filter (λ app, Name app = n) apps)).
Qed.

Lemma listenPorts_bindings (E : Env) (name : string) (ports : list Z)
    (ls : gmap (option nat) string) (tr : Trace) :
  ∃ ls' new,
    foldl (listenOnPort E name) (ls, tr) ports = (ls', tr ++ new)
    ∧ (∀ l n, ls' !! l = Some n →
         (n = name ∧ ∃ laddr, EvListenTCP laddr l ∈ new) ∨ ls !! l = Some n)
    ∧ (∀ laddr l, EvListenTCP laddr l ∈ new → ls' !! l = Some name)
    ∧ (∀ l, ls !! l = Some name → ls' !! l = Some name)
    ∧ (∀ l, is_Some (ls !! l) → is_Some (ls' !! l)).
Proof.
  revert ls tr. induction ports as [|port ports IH]; intros ls tr.
  - exists ls, []. rewrite app_nil_r. split; [done |].
    split; [by right |]. split; [| done].
    intros laddr l Hin. by apply elem_of_nil in Hin.
  - cbn [foldl].
    destruct (listenOnPort_records E name ls tr port)
      as (laddr0 & l0 & new1 & -> & Hin1 & _ & Honly1).
    destruct (IH (<[l0 := name]> ls) (tr ++ new1))
      as (ls' & new2 & -> & Hfrom & Hto & Hkeep & Hsome).
    exists ls', (new1 ++ new2). rewrite app_assoc. split; [done |].
    split; [| split; [| split]].
    + intros l n Hl. destruct (Hfrom l n Hl) as [[-> [laddr Hev]] | Hold].
      * left. split; [done |]. exists laddr. apply elem_of_app. by right.
      * rewrite lookup_insert in Hold. case_decide as Hl0.
        -- injection Hold as <-. subst l. left. split; [done |].
           exists laddr0. apply elem_of_app. by left.
        -- by right.
    + intros laddr l [Hin | Hin]%elem_of_app; [| by eapply Hto].
      rewrite (Honly1 _ _ Hin). apply Hkeep. by rewrite lookup_insert_eq.
    + intros l Hl. apply Hkeep. rewrite lookup_insert.
      case_decide; [done | exact Hl].
    + intros l Hl. apply Hsome. rewrite lookup_insert.
      case_decide; [by eexists | exact Hl].
Qed.

Lemma startApps_bindings (E : Env) (apps : list App) (s : Server) (tr : Trace) :
  ∃ s' new,
    foldl (startApp E) (s, tr) apps = (s', tr ++ new)
    ∧ (∀ l n, listener s' !! l = Some n →
         ((∃ app, app ∈ apps ∧ Name app = n)
          ∧ ∃ laddr, EvListenTCP laddr l ∈ new)
         ∨ listener s !! l = Some n)
    ∧ (∀ laddr l, EvListenTCP laddr l ∈ new → is_Some (listener s' !! l))
    ∧ (∀ l, is_Some (listener s !! l) → is_Some (listener s' !! l))
    ∧ ((∀ l n, listener s !! l = Some n → is_Some (serverPool s !! n)) →
       ∀ l n, listener s' !! l = Some n → is_Some (serverPool s' !! n)).
Proof.
  revert s tr. induction apps as [|app apps IH]; intros s tr.
  - exists s, []. rewrite app_nil_r. split; [done |].
    split; [by right |]. split; [| done].
    intros laddr l Hin. by apply elem_of_nil in Hin.
  - cbn [foldl]. unfold startApp at 2.
    destruct (listenPorts_bindings E (Name app) (Ports app) (listener s) tr)
      as (ls1 & new1 & -> & Hfrom1 & Hto1 & _ & Hsome1).
    set (s1 := {| Quit := Quit s; listener := ls1;
                  listenerGroup := listenerGroup s;
                  serverPool := <[Name app := NewServerPool (Targets app)]>
                                  (serverPool s) |}).
    destruct (IH s1 ((tr ++ new1) ++ [EvGo "sp.HealthCheck()"]))
      as (s2 & new2 & -> & Hfrom2 & Hto2 & Hsome2 & Hpool2).
    exists s2, (new1 ++ [EvGo "sp.HealthCheck()"] ++ new2).
    rewrite <- !app_assoc. split; [done |].
    split; [| split; [| split]].
    + intros l n Hl.
      destruct (Hfrom2 l n Hl) as [[(app' & Happ' & Hn) [laddr Hev]] | Hold].
      * left. split; [exists app'; split; [by right | done] |].
        exists laddr. rewrite !elem_of_app. by right; right.
      * simpl in Hold.
        destruct (Hfrom1 l n Hold) as [[-> [laddr Hev]] | Holder]; [| by right].
        left. split; [exists app; split; [by left | done] |].
        exists laddr. rewrite elem_of_app. by left.
    + intros laddr l Hin. rewrite !elem_of_app in Hin.
      destruct Hin as [Hin | [Hin | Hin]].
      * apply Hsome2. simpl. rewrite (Hto1 _ _ Hin). by eexists.
      * apply list_elem_of_singleton in Hin. discriminate Hin.
      * by eapply Hto2.
    + intros l Hl. apply Hsome2. simpl. by apply Hsome1.
    + intros Hpools. apply Hpool2. simpl. intros l n Hl.
      rewrite lookup_insert. case_decide; [by eexists |].
      destruct (Hfrom1 l n Hl) as [[-> _] | Hold]; [done |].
      by eapply Hpools.
Qed.

(** X8.  The listener map after [NewServer].  Every key of the map is a
    listener that some [ListenTCP] call of this start returned, it is
    bound to the name of a configured application, and that name has a
    pool: a connection accepted on a listener of the map always finds the
    pool it is routed to.  Conversely every listener a [ListenTCP] call
    returned is a key of the map. *)
Theorem NewServer_listener_bindings (E : Env) (apps : list App) (tr : Trace) :
  ∃ new,
    (NewServer E apps tr).2 = tr ++ new
    ∧ (∀ l n, listener (NewServer E apps tr).1 !! l = Some n →
         (∃ app, app ∈ apps ∧ Name app = n)
         ∧ (∃ laddr, EvListenTCP laddr l ∈ new)
         ∧ is_Some (serverPool (NewServer E apps tr).1 !! n))
    ∧ (∀ laddr l, EvListenTCP laddr l ∈ new →
         is_Some (listener (NewServer E apps tr).1 !! l)).
Proof.
  unfold NewServer.
  destruct (startApps_bindings E apps
              {| Quit := NewSigChannel; listener := ∅;
                 listenerGroup := 0; serverPool := ∅ |} tr)
    as (s & new & -> & Hfrom & Hto & _ & Hpool).
  exists (new ++ [EvGo "s.Serve()"]). simpl. rewrite app_assoc.
  split; [done |]. split.
  - intros l n Hl.
    destruct (Hfrom l n Hl) as [[Happ [laddr Hev]] | Hold];
      [| simpl in Hold; by rewrite lookup_empty in Hold].
    split; [done |]. split.
    + exists laddr. apply elem_of_app. by left.
    + eapply Hpool; [| exact Hl]. intros l' n' Hl'.
      simpl in Hl'. by rewrite lookup_empty in Hl'.
  - intros laddr l [Hin | Hin]%elem_of_app; [by eapply Hto |].
    apply list_elem_of_singleton in Hin. discriminate Hin.
Qed.

Lemma listenPorts_go (E : Env) (name : string) (ports : list Z)
    (ls : gmap (option nat) string) (tr : Trace) :
  go_events (foldl (listenOnPort E name) (ls, tr) ports).2 = go_events tr.
Proof.
  revert ls tr. induction ports as [|port ports IH]; intros ls tr; [done |].
  cbn [foldl].
  destruct (listenOnPort_records E name ls tr port)
    as (laddr & l & new & Hrun & _ & _ & _).
  assert (Hgo : go_events (listenOnPort E name (ls, tr) port).2 = go_events tr).
  { unfold listenOnPort.
    destruct (resolve_tcp_addr E tr _), (listen_tcp E _ _);
      simpl; unfold go_events; rewrite !omap_app; simpl;
      by rewrite ?app_nil_r. }
  destruct (listenOnPort E name (ls, tr) port) as [ls1 tr1].
  rewrite IH. exact Hgo.
Qed.

Lemma startApps_go (E : Env) (apps : list App) (s : Server) (tr : Trace) :
  go_events (foldl (startApp E) (s, tr) apps).2
  = go_events tr ++ replicate (length apps) "sp.HealthCheck()"
  ∧ Quit (foldl (startApp E) (s, tr) apps).1 = Quit s
  ∧ listenerGroup (foldl (startApp E) (s, tr) apps).1 = listenerGroup s.
Proof.
  revert s tr. induction apps as [|app apps IH]; intros s tr.
  - simpl. by rewrite app_nil_r.
  - cbn [foldl].
    pose proof (startApp_pool E s tr app) as (_ & Hq & Hg).
    assert (Hgo : go_events (startApp E (s, tr) app).2
                  = go_events tr ++ ["sp.HealthCheck()"]).
    { unfold startApp.
      pose proof (listenPorts_go E (Name app) (Ports app) (listener s) tr) as H.
      destruct (foldl (listenOnPort E (Name app)) (listener s, tr) (Ports app))
        as [ls1 tr1]. simpl in *.
      unfold go_events in *. by rewrite omap_app, H. }
    destruct (startApp E (s, tr) app) as [s1 tr1]. simpl in *.
    destruct (IH s1 tr1) as (-> & -> & ->).
    rewrite Hgo, <- app_assoc. done.
Qed.

(** X9.  The goroutines of a start.  [NewServer] starts as many health
    checkers as there are configured applications, and after them one
    [Serve], whatever fails on the way; it returns with the shutdown signal
    open and one registration in the wait group, the one [Serve] gives
    back. *)
Theorem NewServer_goroutines (E : Env) (apps : list App) (tr : Trace) :
  go_events (NewServer E apps tr).2
  = go_events tr ++ replicate (length apps) "sp.HealthCheck()" ++ ["s.Serve()"]
  ∧ Quit (NewServer E apps tr).1 = NewSigChannel
  ∧ listenerGroup (NewServer E apps tr).1 = 1.
Proof.
  unfold NewServer.
  pose proof (startApps_go E apps
                {| Quit := NewSigChannel; listener := ∅;
                   listenerGroup := 0; serverPool := ∅ |} tr)
    as (Hgo & Hq & Hg).
  destruct (foldl (startApp E) _ apps) as [s tr']. simpl in *.
  split; [| by rewrite Hq, Hg].
  unfold go_events in *. rewrite omap_app, Hgo. simpl.
  by rewrite <- app_assoc.
Qed.

(** ** Serving and accepting *)

Lemma serveListeners_counter (s : Server) (order : list (option nat))
    (g : Z) (tr : Trace) :
  0 ≤ g →
  foldl (serveListener s) (Ok g, tr) order
  = (Ok (g + Z.of_nat (length order)),
     tr ++ ((λ ln, EvGoAccept ln (default "" (listener s !! ln))) <$> order)).
Proof.
  revert g tr. induction order as [|ln order IH]; intros g tr Hg; simpl.
  - by rewrite Z.add_0_r, app_nil_r.
  - unfold wg_Add. destruct (Z.ltb_spec (g + 1) 0); [lia |].
    rewrite IH by lia. rewrite <- app_assoc. do 2 f_equal. lia.
Qed.

(** X10.  [Serve] after [NewServer].  Entered with at least the
    registration [NewServer] made, [Serve] starts exactly one accept loop
    per listener of the map, each with the application name bound to that
    listener, logs, and returns with the wait group counting one
    registration per accept loop (its own is given back); maps and signal
    are untouched. *)
Theorem Serve_registers_accept_loops
    (order : list (option nat)) (s : Server) (tr : Trace) :
  range_order s order → 1 ≤ listenerGroup s →
  ∃ s' started,
    Serve order s tr
    = (Ok s', tr ++ started ++ [EvLog "Started Listening For New Connections"])
    ∧ started ≡ₚ (λ b, EvGoAccept b.1 b.2) <$> map_to_list (listener s)
    ∧ listenerGroup s' = listenerGroup s + Z.of_nat (size (listener s)) - 1
    ∧ listener s' = listener s ∧ serverPool s' = serverPool s
    ∧ Quit s' = Quit s.
Proof.
  intros Horder Hg. unfold Serve.
  rewrite serveListeners_counter by lia. simpl.
  unfold wg_Done, wg_Add.
  destruct (Z.ltb_spec (listenerGroup s + Z.of_nat (length order) + -1) 0); [lia |].
  simpl. eexists _, _. split; [by rewrite <- app_assoc |].
  split; [| split; [| done]].
  - unfold range_order in Horder. rewrite Horder.
    rewrite <- list_fmap_compose.
    assert (Heq : (λ ln, EvGoAccept ln (default "" (listener s !! ln))) ∘ fst
                    <$> map_to_list (listener s)
                  = (λ b, EvGoAccept b.1 b.2) <$> map_to_list (listener s)).
    { apply list_fmap_ext. intros i [ln name] Hb. simpl.
      apply list_elem_of_lookup_2, elem_of_map_to_list in Hb. by rewrite Hb. }
    by rewrite Heq.
  - simpl. unfold range_order in Horder.
    rewrite (Permutation_length Horder), length_fmap, length_map_to_list. lia.
Qed.

Lemma Serve_registers_accept_loops_witness :
  ∃ s', Serve [Some 1; Some 2]%nat server_two_listeners []
        = (Ok s', [EvGoAccept (Some 1%nat) "app1"; EvGoAccept (Some 2%nat) "app1";
                   EvLog "Started Listening For New Connections"])
        ∧ listenerGroup s' = 2.
Proof.
  destruct (Serve_registers_accept_loops [Some 1; Some 2]%nat
              server_two_listeners [])
    as (s' & started & Hrun & _ & Hg & _).
  - unfold range_order.
    assert (Hkeys : (map_to_list (listener server_two_listeners)).*1
                    = [Some 1; Some 2]%nat) by (vm_compute; reflexivity).
    by rewrite Hkeys.
  - simpl. lia.
  - exists s'. split.
    + rewrite Hrun. f_equal.
      assert (Hsame : (Serve [Some 1; Some 2]%nat server_two_listeners []).2
                = [EvGoAccept (Some 1%nat) "app1"; EvGoAccept (Some 2%nat) "app1";
                   EvLog "Started Listening For New Connections"])
        by (vm_compute; reflexivity).
      rewrite Hrun in Hsame. exact Hsame.
    + rewrite Hg.
      assert (Hsize : size (listener server_two_listeners) = 2%nat)
        by (vm_compute; reflexivity).
      rewrite Hsize. reflexivity.
Defined.

Lemma acceptConnections_from (E : Env) (quit_at : nat → bool) (l : nat)
    (app : string) (n k : nat) (g : Z) (tr : Trace) :
  0 ≤ g →
  ∃ c g' new,
    acceptConnections E quit_at (Some l) app k n (g, tr) = Ok (c, (g', tr ++ new))
    ∧ handlers_started new = (λ conn, (conn, app)) <$> accepted_conns new
    ∧ g' = g + Z.of_nat (length (accepted_conns new))
    ∧ (c = Break →
         ∃ j pre, (k ≤ j < k + n)%nat ∧ quit_at j = true
                  ∧ new = pre ++ [EvAcceptTCP l None])
    ∧ (c = Continue → length (accept_events new) = n)
    ∧ ((∀ j, quit_at j = false) → c = Continue).
Proof.
  revert k g tr. induction n as [|n IH]; intros k g tr Hg.
  - exists Continue, g, []. rewrite app_nil_r. simpl.
    split; [done |]. split; [done |]. split; [lia |]. done.
  - cbn [acceptConnections]. unfold acceptConnections_round.
    destruct (accept_tcp E tr l) as [conn|] eqn:Hacc.
    + unfold wg_Add. destruct (Z.ltb_spec (g + 1) 0); [lia |]. simpl.
      destruct (IH (S k) (g + 1)
                  ((tr ++ [EvAcceptTCP l (Some conn)]) ++ [EvGoHandle conn app]))
        as (c & g' & new & Hrun & Hh & Hg' & Hbreak & Hcont & Hopen); [lia |].
      exists c, g', ([EvAcceptTCP l (Some conn); EvGoHandle conn app] ++ new).
      split; [rewrite Hrun; by rewrite <- !app_assoc |].
      unfold handlers_started, accepted_conns, accept_events in *.
      rewrite !omap_app. simpl.
      split; [by rewrite Hh |]. split; [lia |]. split; [| split; [| done]].
      * intros Hc. destruct (Hbreak Hc) as (j & pre & Hj & Hq & ->).
        exists j, ([EvAcceptTCP l (Some conn); EvGoHandle conn app] ++ pre).
        split; [lia |]. split; [done |]. by rewrite <- app_assoc.
      * intros Hc. by rewrite (Hcont Hc).
    + destruct (quit_at k) eqn:Hq.
      * simpl. exists Break, g, [EvAcceptTCP l None].
        split; [done |]. split; [done |]. split; [simpl; lia |].
        split; [| split; [done |]].
        -- intros _. exists k, []. split; [lia |]. done.
        -- intros Hopen. by rewrite Hopen in Hq.
      * simpl.
        destruct (IH (S k) g
                    ((tr ++ [EvAcceptTCP l None])
                     ++ [EvLog "an error occured while accepting TCP connections"]))
          as (c & g' & new & Hrun & Hh & Hg' & Hbreak & Hcont & Hopen); [lia |].
        exists c, g',
          ([EvAcceptTCP l None;
            EvLog "an error occured while accepting TCP connections"] ++ new).
        split; [rewrite Hrun; by rewrite <- !app_assoc |].
        unfold handlers_started, accepted_conns, accept_events in *.
        rewrite !omap_app. simpl.
        split; [done |]. split; [done |]. split; [| split; [| done]].
        -- intros Hc. destruct (Hbreak Hc) as (j & pre & Hj & Hqj & ->).
           exists j, ([EvAcceptTCP l None;
                       EvLog "an error occured while accepting TCP connections"]
                      ++ pre).
           split; [lia |]. split; [done |]. by rewrite <- app_assoc.
        -- intros Hc. by rewrite (Hcont Hc).
Qed.

(** X11.  The accept loop of a listener.  On a non-nil listener the loop
    never panics.  It starts one handler per accepted connection, in the
    order of the accepts and with the application name of its listener,
    and registers each in the wait group.  A failed accept is logged and
    the loop goes on, however many fail in a row; the loop is left only
    right after a failed accept that finds the shutdown signal closed. *)
Theorem acceptConnections_accounting (E : Env) (quit_at : nat → bool) (l : nat)
    (app : string) (n : nat) (g : Z) (tr : Trace) :
  0 ≤ g →
  ∃ c g' new,
    acceptConnections E quit_at (Some l) app 0 n (g, tr) = Ok (c, (g', tr ++ new))
    ∧ handlers_started new = (λ conn, (conn, app)) <$> accepted_conns new
    ∧ g' = g + Z.of_nat (length (accepted_conns new))
    ∧ (c = Break →
         ∃ j pre, (j < n)%nat ∧ quit_at j = true
                  ∧ new = pre ++ [EvAcceptTCP l None])
    ∧ (c = Continue → length (accept_events new) = n)
    ∧ ((∀ j, quit_at j = false) → c = Continue).
Proof.
  intros Hg.
  destruct (acceptConnections_from E quit_at l app n 0 g tr Hg)
    as (c & g' & new & Hrun & Hh & Hg' & Hbreak & Hcont & Hopen).
  exists c, g', new. split; [done |]. split; [done |]. split; [done |].
  split; [| done].
  intros Hc. destruct (Hbreak Hc) as (j & pre & Hj & Hq & Hnew).
  exists j, pre. split; [lia | done].
Qed.

Lemma acceptConnections_accounting_witness :
  acceptConnections env_closing (λ j, (2 <=? j)%nat) (Some 1%nat) "app1" 0 5 (1, [])
  = Ok (Break, (3, [EvAcceptTCP 1 (Some 0%nat); EvGoHandle 0 "app1";
                    EvAcceptTCP 1 (Some 2%nat); EvGoHandle 2 "app1";
                    EvAcceptTCP 1 None])).
Proof.
  destruct (acceptConnections_accounting env_closing (λ j, (2 <=? j)%nat) 1
              "app1" 5 1 [])
    as (c & g' & new & Hrun & _); [lia |].
  rewrite Hrun.
  assert (Hsame : acceptConnections env_closing (λ j, (2 <=? j)%nat)
                    (Some 1%nat) "app1" 0 5 (1, [])
          = Ok (Break, (3, [EvAcceptTCP 1 (Some 0%nat); EvGoHandle 0 "app1";
                            EvAcceptTCP 1 (Some 2%nat); EvGoHandle 2 "app1";
                            EvAcceptTCP 1 None])))
    by (vm_compute; reflexivity).
  rewrite Hrun in Hsame. exact Hsame.
Defined.

(** X12.  The wait group while a connection is handled.  Whatever the
    handler, its relay and the other goroutines do, no wait-group operation
    panics on a negative counter, the counter always equals the
    registrations still held (the handler's own, the running relay, the
    others'), and the handler's own registration is never given back: once
    a connection was accepted the counter never returns to zero. *)
Theorem listenerGroup_accounting (n : nat) (sched : list Move) :
  (∀ msg, run sched (accepted n) ≠ Crash msg)
  ∧ ∀ c, run sched (accepted n) = Next c →
      wrapper_done c = false
      ∧ group c = 1 + Z.of_nat (relays_running c) + Z.of_nat (others c)
      ∧ group c ≠ 0.
Proof.
  split.
  - intros msg. apply run_no_crash, accepted_inv.
  - intros c Hrun.
    pose proof (run_inv sched _ _ (accepted_inv n) Hrun) as (_ & Hw & Hg & _).
    split; [done |]. split; [done | lia].
Qed.

(** ** Routing a connection *)


(** X13.  Routing stays within the application.  For an application whose
    pool has at least one backend, [proxyConnection] dials one address: the
    target of a live backend of that application's own pool, or the empty
    address if none is alive.  If the dial fails, the error is logged, the
    inbound connection is closed and the call returns.  If the dial
    succeeds, both copies are started, and the call returns, after closing
    both connections, only when the copy from the backend returns; as long
    as that copy goes on the call stays blocked and closes nothing.  What a
    return leaves behind differs from before in the cursor of that pool
    only: its backends, every other application's pool, the listener map,
    the signal and the wait group are as they were. *)
Theorem proxyConnection_routes_within_app
    (E : Env) (s : Server) (conn : nat) (appName : string) (tr : Trace)
    (pool : ServerPool) :
  serverPool s !! appName = Some pool → backends pool ≠ [] →
  ∃ s' pool' addr,
    (none_alive pool ∧ addr = ""
     ∨ ∃ p b, backends pool !! p = Some b ∧ Alive b = true ∧ addr = target b)
    ∧ proxyConnection E s conn appName tr
      = match DialTCP E "tcp" addr tr with
        | (None, tr1) => (Ok s', tr1 ++ dial_failed conn)
        | (Some conn2, tr1) =>
          if copy_returns E (tr1 ++ [EvGo "io.Copy(conn2, conn)"]) conn
               (conn_id conn2)
          then (Ok s', tr1 ++ relayed conn conn2)
          else (NoReturn, tr1 ++ relaying conn conn2)
        end
    ∧ serverPool s' !! appName = Some pool'
    ∧ backends pool' = backends pool
    ∧ (∀ other, other ≠ appName → serverPool s' !! other = serverPool s !! other)
    ∧ listener s' = listener s ∧ Quit s' = Quit s
    ∧ listenerGroup s' = listenerGroup s.
Proof.
  intros Hpool Hne. pose proof (len_pos pool Hne) as HN.
  unfold proxyConnection. rewrite Hpool.
  pose proof (GetNextPeer_spec pool Hne) as Hspec. cbv zeta in Hspec.
  set (r := find (alive_at pool) _) in Hspec.
  set (pool' := if alive_at pool _ then _ else _) in Hspec.
  rewrite Hspec. cbv beta iota zeta.
  assert (Hbs : backends pool' = backends pool).
  { subst pool'.
    destruct (alive_at pool (Z.to_nat (AddUint64 (current pool) 1 `mod` len pool)));
      [done |]. by destruct r. }
  match goal with
  | |- context [DialTCP E "tcp" ?a tr] => set (addr := a)
  end.
  assert (Haddr : none_alive pool ∧ addr = ""
                  ∨ ∃ p b, backends pool !! p = Some b ∧ Alive b = true
                           ∧ addr = target b).
  { subst addr. destruct r as [p|] eqn:Hr.
    - right. subst r. apply find_first in Hr as (_ & _ & Hp & _).
      unfold alive_at in Hp.
      destruct (backends pool !! p) as [b|] eqn:Hb; [| done].
      exists p, b. rewrite Hbs.
      split; [done |]. split; [exact Hp |].
      change (default "" (GetAddress <$> backends pool !! p) = target b).
      by rewrite Hb.
    - left. split; [| done]. subst r. by apply find_cycle_none in Hr. }
  exists {| Quit := Quit s; listener := listener s;
            listenerGroup := listenerGroup s;
            serverPool := <[appName := pool']> (serverPool s) |},
    pool', addr.
  split; [exact Haddr |]. split.
  { destruct (DialTCP E "tcp" addr tr) as [[conn2|] tr1]; [| reflexivity].
    unfold relayed, relaying.
    destruct (copy_returns E _ conn (conn_id conn2));
      by rewrite <- !app_assoc. }
  simpl. split; [by rewrite lookup_insert_eq |].
  split; [done |]. split; [| done].
  intros other Hother. by rewrite lookup_insert_ne.
Qed.

Lemma proxyConnection_routes_within_app_witness :
  (∃ s', proxyConnection env_up server_two_listeners 7 "app1" []
         = (Ok s', [EvResolveTCPAddr "127.0.0.1:9001" (Some loopback);
                    EvSocket (Some 3); EvSetsockopt 3 true;
                    EvConnect 3 (SockaddrInet4 [127; 0; 0; 1] 0) ConnectOk;
                    EvFileConn 3 (Some 4%nat); EvCloseFile 3;
                    EvGo "io.Copy(conn2, conn)"; EvRelay 7 4;
                    EvCloseConn 4; EvCloseConn 7]))
  ∧ proxyConnection env_streaming server_two_listeners 7 "app1" []
    = (NoReturn, [EvResolveTCPAddr "127.0.0.1:9001" (Some loopback);
                  EvSocket (Some 3); EvSetsockopt 3 true;
                  EvConnect 3 (SockaddrInet4 [127; 0; 0; 1] 0) ConnectOk;
                  EvFileConn 3 (Some 4%nat); EvCloseFile 3;
                  EvGo "io.Copy(conn2, conn)"; EvRelay 7 4]).
Proof.
  assert (Haddr : ∀ addr,
    none_alive (NewServerPool ["127.0.0.1:9001"]) ∧ addr = ""
    ∨ (∃ p b, backends (NewServerPool ["127.0.0.1:9001"]) !! p = Some b
              ∧ Alive b = true ∧ addr = target b) →
    addr = "127.0.0.1:9001").
  { intros addr [[Hnone _] | (p & b & Hb & _ & ->)].
    - specialize (Hnone (NewBackend "127.0.0.1:9001")).
      discriminate Hnone. simpl. left.
    - destruct p as [|p]; [by injection Hb as <- | done]. }
  split.
  - destruct (proxyConnection_routes_within_app env_up server_two_listeners 7
                "app1" [] (NewServerPool ["127.0.0.1:9001"]))
      as (s' & pool' & addr & Hdialed & Hrun & _).
    + reflexivity.
    + discriminate.
    + apply Haddr in Hdialed. subst addr.
      exists s'. rewrite Hrun. reflexivity.
  - destruct (proxyConnection_routes_within_app env_streaming
                server_two_listeners 7 "app1" [] (NewServerPool ["127.0.0.1:9001"]))
      as (s' & pool' & addr & Hdialed & Hrun & _).
    + reflexivity.
    + discriminate.
    + apply Haddr in Hdialed. subst addr.
      rewrite Hrun. reflexivity.
Defined.



(** ** Dialing *)

(** Settles one path through [DialTCP]: the events it adds, then what
    they open and close. *)
Ltac dial_path :=
  eexists; split; [rewrite <- ?app_assoc; reflexivity |];
  simpl;
  first [ done
        | by left
        | right; split; [done | set_solver]
        | split; done ].

(** X15.  Descriptors of a dial.  [DialTCP] opens at most one socket.  If
    it opens none it fails and closes nothing.  If it opens one and
    succeeds, the descriptor is released once, through the [os.File], and
    the connection returned has an idle timeout of 20 seconds.  If it opens
    one and fails, the descriptor is closed by [syscall.Close]; only after
    a failed [FileConn] it is closed a second time, by the deferred
    [f.Close].  No path returns with the descriptor left open. *)
Theorem DialTCP_releases_descriptor (E : Env) (network addr : string) (tr : Trace) :
  ∃ new,
    (DialTCP E network addr tr).2 = tr ++ new
    ∧ match sockets_opened new, (DialTCP E network addr tr).1 with
      | [], None => fd_closes new = []
      | [fd], Some c =>
        fd_closes new = [FileClose fd] ∧ idleTimeout c = 20 * Second
      | [fd], None =>
        fd_closes new = [RawClose fd]
        ∨ (fd_closes new = [RawClose fd; FileClose fd]
           ∧ EvFileConn fd None ∈ new)
      | _, _ => False
      end.
Proof.
  unfold DialTCP.
  destruct (resolve_tcp_addr E tr addr) as [taddr|]; [| dial_path].
  destruct (tcpAddrToSocketAddr taddr) as [saddr|]; [| dial_path].
  destruct (sys_socket E _) as [fd|]; [| dial_path].
  destruct (sys_setsockopt_ok E _ fd); simpl; [| dial_path].
  destruct (sys_connect E _ fd saddr); simpl;
    try (destruct (file_conn E _ fd)); dial_path.
Qed.

Lemma parse_digits_range (s : string) (acc v : Z) :
  0 ≤ acc → parse_digits acc s = Some v → 0 ≤ v.
Proof.
  revert acc. induction s as [|a s IH]; intros acc Hacc; simpl.
  - by intros [= <-].
  - unfold digit_of.
    destruct ((48 <=? Z.of_nat (Ascii.nat_of_ascii a))
              && (Z.of_nat (Ascii.nat_of_ascii a) <=? 57)) eqn:Hd; [| done].
    apply IH. apply andb_prop in Hd as [H1%Z.leb_le H2]. lia.
Qed.

(** X16.  Which targets can be dialed.  A four-byte IP, and a 16-byte IP
    in the IPv4-mapped form, always convert to an IPv4 socket address with
    the same four bytes and port, whatever the zone.  Any other IP converts
    only if its zone is a decimal number below [2^32]: an IPv6 target
    without a zone, or with an interface name as zone, cannot be dialed.
    What is built has four address bytes for IPv4 and sixteen for IPv6. *)
Theorem tcpAddrToSocketAddr_families (a : TCPAddr) :
  (length (IP a) = 4%nat →
   tcpAddrToSocketAddr a = Some (SockaddrInet4 (IP a) (Port a)))
  ∧ (∀ ip4, length ip4 = 4%nat → IP a = v4InV6Prefix ++ ip4 →
       tcpAddrToSocketAddr a = Some (SockaddrInet4 ip4 (Port a)))
  ∧ (To4 (IP a) = None → ParseUint32 (Zone a) = None →
       tcpAddrToSocketAddr a = None)
  ∧ (To4 (IP a) = None → Zone a = "" → tcpAddrToSocketAddr a = None)
  ∧ (∀ sa, tcpAddrToSocketAddr a = Some sa →
       match sa with
       | SockaddrInet4 ip port => length ip = 4%nat ∧ port = Port a
       | SockaddrInet6 ip port zone =>
         length ip = 16%nat ∧ port = Port a ∧ 0 ≤ zone < 2 ^ 32
         ∧ ParseUint32 (Zone a) = Some zone
       end).
Proof.
  assert (Hcopy : ∀ n src, length (copy_into n src) = n).
  { intros n src. unfold copy_into.
    rewrite length_take, length_app, length_replicate. lia. }
  assert (Hcopy4 : ∀ ip, length ip = 4%nat → copy_into 4 (Some ip) = ip).
  { intros ip Hip. unfold copy_into. simpl.
    rewrite take_app_le by lia. apply take_ge. lia. }
  split; [| split; [| split; [| split]]].
  - intros Hlen. unfold tcpAddrToSocketAddr, To4. rewrite Hlen. simpl.
    by rewrite Hcopy4.
  - intros ip4 Hlen Hip. unfold tcpAddrToSocketAddr, To4.
    rewrite Hip, length_app, Hlen. simpl.
    change (drop 0 ip4) with ip4. by rewrite Hcopy4.
  - intros H4 Hzone. unfold tcpAddrToSocketAddr. by rewrite H4, Hzone.
  - intros H4 Hzone. unfold tcpAddrToSocketAddr. by rewrite H4, Hzone.
  - intros sa. unfold tcpAddrToSocketAddr.
    destruct (To4 (IP a)) as [ip4|] eqn:H4.
    + intros [= <-]. split; [apply Hcopy | done].
    + destruct (ParseUint32 (Zone a)) as [zone|] eqn:Hzone; [| done].
      intros [= <-]. split; [apply Hcopy |]. split; [done |]. split; [| done].
      unfold ParseUint32 in Hzone.
      destruct (Zone a) as [|c z]; [done |].
      destruct (parse_digits 0 (String c z)) as [v|] eqn:Hv; [| done].
      destruct (Z.ltb_spec v (2 ^ 32)); [| done].
      injection Hzone as <-. split; [| done].
      by apply (parse_digits_range (String c z) 0).
Qed.

Lemma tcpAddrToSocketAddr_families_witness :
  tcpAddrToSocketAddr
    {| IP := [0; 0; 0; 0; 0; 0; 0; 0; 0; 0; 0; 0; 0; 0; 0; 1];
       Port := 8080; Zone := "" |}
  = None.
Proof.
  destruct (tcpAddrToSocketAddr_families
              {| IP := [0; 0; 0; 0; 0; 0; 0; 0; 0; 0; 0; 0; 0; 0; 0; 1];
                 Port := 8080; Zone := "" |})
    as (_ & _ & _ & Hnozone & _).
  apply Hnozone; reflexivity.
Defined.

(** ** Stopping twice *)

Lemma closeListeners_ok_closed (E : Env) (l : nat) (rest : list (option nat))
    (tr tr' : Trace) (u : unit) :
  closeListeners E (Some l :: rest) tr = (Ok u, tr') →
  EvCloseListener l true ∈ tr'.
Proof.
  intros Hrun.
  destruct (closeListeners_spec E (Some l :: rest) tr)
    as (closed & rest0 & r & tr0 & Hrun0 & Horder & Hrest).
  rewrite Hrun in Hrun0. injection Hrun0 as <- <-.
  destruct rest0 as [|[l0|] rest0]; destruct Hrest as [Hr ->]; try discriminate Hr.
  rewrite app_nil_r in Horder.
  destruct closed as [|l1 closed]; [discriminate Horder |].
  injection Horder as <- _.
  apply elem_of_app. right. simpl. left.
Qed.

(** X17.  [Stop] is not to be called twice.  Where closing an already
    closed listener fails (as it does for a TCP listener), a second [Stop]
    after a successful one closes nothing and does not touch the shutdown
    signal again, but ends the process: the first listener it visits
    returns an error to [Close], which is fatal. *)
Theorem Stop_twice_is_fatal (E : Env) (l : nat) (rest : list (option nat))
    (s s1 : Server) (tr tr1 : Trace) :
  (∀ tr0 l0, EvCloseListener l0 true ∈ tr0 → close_listener_ok E tr0 l0 = false) →
  Stop E (Some l :: rest) s tr = (Ok s1, tr1) →
  Stop E (Some l :: rest) s1 tr1 = (Exit 1, tr1 ++ fatal_close l).
Proof.
  intros Hstrict Hfirst.
  assert (Hfacts : once_done (Quit s1) = true ∧ EvCloseListener l true ∈ tr1).
  { revert Hfirst. unfold Stop, SafeClose, close_chan.
    destruct (once_done (Quit s)) eqn:Hdone.
    - destruct (closeListeners E (Some l :: rest) tr) as [[u | m | c |] tr0] eqn:Hclose;
        [| done | done | done].
      intros [= <- <-]. simpl. split; [done |].
      apply elem_of_app. left. by eapply closeListeners_ok_closed.
    - destruct (C_closed (Quit s)); [done |].
      destruct (closeListeners E (Some l :: rest) (tr ++ [EvCloseChan]))
        as [[u | m | c |] tr0] eqn:Hclose; [| done | done | done].
      intros [= <- <-]. simpl. split; [done |].
      apply elem_of_app. left. by eapply closeListeners_ok_closed. }
  destruct Hfacts as [Hdone Hclosed].
  unfold Stop, SafeClose. rewrite Hdone. cbn [closeListeners].
  rewrite (Hstrict tr1 l Hclosed). unfold fatal_close.
  by rewrite <- app_assoc.
Qed.

Lemma closed_before_spec (l : nat) (tr : Trace) :
  EvCloseListener l true ∈ tr → closed_before l tr = true.
Proof.
  intros Hin. unfold closed_before. apply existsb_exists.
  exists (EvCloseListener l true). split; [by apply list_elem_of_In |].
  apply Nat.eqb_refl.
Qed.

Lemma Stop_twice_is_fatal_witness :
  ∃ s1 tr1,
    Stop env_strict [Some 1; Some 2]%nat server_two_listeners [] = (Ok s1, tr1)
    ∧ Stop env_strict [Some 1; Some 2]%nat s1 tr1 = (Exit 1, tr1 ++ fatal_close 1).
Proof.
  destruct (Stop env_strict [Some 1; Some 2]%nat server_two_listeners [])
    as [[s1 | m | c |] tr1] eqn:Hfirst; try (vm_compute in Hfirst; discriminate Hfirst).
  exists s1, tr1. split; [reflexivity |].
  apply (Stop_twice_is_fatal env_strict 1 [Some 2%nat] server_two_listeners s1 [] tr1);
    [| exact Hfirst].
  intros tr0 l0 Hin. simpl. by rewrite closed_before_spec.
Defined.

